(** * Smart-city console: the alert store and the push-event hook

    A shallow embedding of
    - [frontend/src/store/alertsSlice.ts] (the Redux slice holding the
      alerts and the cached active view, and its three async thunks),
    - [hooks/useWebSocket.ts] (the socket.io handlers that feed it),
    - the [alertsAPI] part of [services/api.ts] (the REST calls),
    followed by the properties of the alert synchronization core; then
    of the code around it: the alerts page, the dashboard and auth
    slices, the HTTP interceptors, the route guard and the navigation of
    the layout. *)

From stdpp Require Import gmap strings list fin_maps.

(** ** JavaScript values and objects *)

(** The values an alert record or an event payload holds: strings
    ([id], [status], timestamps, ...), arrays of strings
    ([affected_systems], [recommended_actions], [severity_levels],
    [modules]) and [undefined]. *)
Inductive JsValue : Type :=
  | JUndefined
  | JString (s : string)
  | JArray (xs : list string).

#[global] Instance JsValue_eq_dec : EqDecision JsValue.
Proof. solve_decision. Defined.

(** A plain object is a finite map from property names to values. *)
Abbreviation JsObject := (gmap string JsValue).

(** [o.k]: reading a property that is absent gives [undefined]. *)
Definition get (o : JsObject) (k : string) : JsValue :=
  default JUndefined (o !! k).

(** [{ ...a, ...b }]: the properties of [b] win over those of [a]. *)
Definition spread (a b : JsObject) : JsObject := b ∪ a.

(** [o.k = v] on a draft. *)
Definition assign (k : string) (v : JsValue) (o : JsObject) : JsObject :=
  <[k := v]> o.

(** [x === y]. Strings compare by content; arrays compare by reference,
    and no two arrays of this model share one (the slice only compares
    [id] and [status], which are strings). *)
Definition strict_eq (x y : JsValue) : bool :=
  match x, y with
  | JUndefined, JUndefined => true
  | JString a, JString b => bool_decide (a = b)
  | _, _ => false
  end.

(** [x || d] on an optional string: [undefined] and the empty string are
    falsy. *)
Definition or_else (x : option string) (d : string) : string :=
  match x with
  | Some s => if bool_decide (s = "") then d else s
  | None => d
  end.

(** ** Array operations used by the slice *)

(** [l.findIndex(p)], with [None] for [-1]. *)
Fixpoint findIndex {A : Type} (p : A → bool) (l : list A) : option nat :=
  match l with
  | [] => None
  | x :: l' => if p x then Some 0 else S <$> findIndex p l'
  end.

(** [l.unshift(x)]. *)
Definition unshift {A : Type} (x : A) (l : list A) : list A := x :: l.

(** [l.splice(i, 1)]. *)
Definition splice1 {A : Type} (i : nat) (l : list A) : list A := delete i l.

(** ** The slice state *)

Record AlertsState : Type := mkState {
  alerts : list JsObject;
  activeAlerts : list JsObject;
  isLoading : bool;
  error : option string;
  filters : JsObject
}.

Definition initialState : AlertsState :=
  {| alerts := [];
     activeAlerts := [];
     isLoading := false;
     error := None;
     filters := {[ "status" := JString "active";
                   "severity" := JString "";
                   "module" := JString "" ]} |}.

Definition id_is (v : JsValue) (alert : JsObject) : bool :=
  strict_eq (get alert "id") v.

Definition is_active (alert : JsObject) : bool :=
  strict_eq (get alert "status") (JString "active").

(** ** Reducers *)

Definition addAlert (payload : JsObject) (state : AlertsState) : AlertsState :=
  let state1 :=
    {| alerts := unshift payload (alerts state);
       activeAlerts := activeAlerts state;
       isLoading := isLoading state;
       error := error state;
       filters := filters state |} in
  if strict_eq (get payload "status") (JString "active") then
    {| alerts := alerts state1;
       activeAlerts := unshift payload (activeAlerts state1);
       isLoading := isLoading state1;
       error := error state1;
       filters := filters state1 |}
  else state1.

Definition updateAlert (payload : JsObject) (state : AlertsState) : AlertsState :=
  let alerts' :=
    match findIndex (id_is (get payload "id")) (alerts state) with
    | Some index => alter (fun old => spread old payload) index (alerts state)
    | None => alerts state
    end in
  let activeAlerts' :=
    match findIndex (id_is (get payload "id")) (activeAlerts state) with
    | Some activeIndex =>
        if strict_eq (get payload "status") (JString "active") then
          alter (fun old => spread old payload) activeIndex (activeAlerts state)
        else splice1 activeIndex (activeAlerts state)
    | None => activeAlerts state
    end in
  {| alerts := alerts';
     activeAlerts := activeAlerts';
     isLoading := isLoading state;
     error := error state;
     filters := filters state |}.

Definition setFilters (payload : JsObject) (state : AlertsState) : AlertsState :=
  {| alerts := alerts state;
     activeAlerts := activeAlerts state;
     isLoading := isLoading state;
     error := error state;
     filters := spread (filters state) payload |}.

Definition clearError (state : AlertsState) : AlertsState :=
  {| alerts := alerts state;
     activeAlerts := activeAlerts state;
     isLoading := isLoading state;
     error := None;
     filters := filters state |}.

Definition fetchAlerts_pending (state : AlertsState) : AlertsState :=
  {| alerts := alerts state;
     activeAlerts := activeAlerts state;
     isLoading := true;
     error := None;
     filters := filters state |}.

Definition fetchAlerts_fulfilled (payload : list JsObject) (state : AlertsState)
  : AlertsState :=
  {| alerts := payload;
     activeAlerts := List.filter is_active payload;
     isLoading := false;
     error := error state;
     filters := filters state |}.

Definition fetchAlerts_rejected (payload : string) (state : AlertsState)
  : AlertsState :=
  {| alerts := alerts state;
     activeAlerts := activeAlerts state;
     isLoading := false;
     error := Some payload;
     filters := filters state |}.

(** [state.alerts.find(a => a.id === alertId)] followed by the two
    assignments on the draft it returns: the first record with that id is
    rewritten in place.  [now] is [new Date().toISOString()]. *)
Definition mark_first (alertId : string) (status stamp now : string)
    (l : list JsObject) : list JsObject :=
  match findIndex (id_is (JString alertId)) l with
  | Some i => alter (fun a => assign stamp (JString now) (assign "status" (JString status) a)) i l
  | None => l
  end.

Definition acknowledgeAlert_fulfilled (now : string) (alertId : string)
    (state : AlertsState) : AlertsState :=
  {| alerts := mark_first alertId "acknowledged" "acknowledged_at" now (alerts state);
     activeAlerts :=
       List.filter (fun a => negb (id_is (JString alertId) a)) (activeAlerts state);
     isLoading := isLoading state;
     error := error state;
     filters := filters state |}.

Definition resolveAlert_fulfilled (now : string) (alertId : string)
    (state : AlertsState) : AlertsState :=
  {| alerts := mark_first alertId "resolved" "resolved_at" now (alerts state);
     activeAlerts :=
       List.filter (fun a => negb (id_is (JString alertId) a)) (activeAlerts state);
     isLoading := isLoading state;
     error := error state;
     filters := filters state |}.

(** ** Actions and the slice reducer *)

(** The actions that reach the slice: its four own reducers, the
    lifecycle actions of the three thunks, and the actions of the other
    slices of the store ([OtherSlice]).  Only the cases registered in
    [reducers] and [extraReducers] change the state. *)
Inductive Action : Type :=
  | AddAlert (payload : JsObject)
  | UpdateAlert (payload : JsObject)
  | SetFilters (payload : JsObject)
  | ClearError
  | FetchAlertsPending
  | FetchAlertsFulfilled (payload : list JsObject)
  | FetchAlertsRejected (payload : string)
  | AcknowledgeAlertPending (alertId : string)
  | AcknowledgeAlertFulfilled (alertId : string)
  | AcknowledgeAlertRejected (payload : string)
  | ResolveAlertPending (alertId : string)
  | ResolveAlertFulfilled (alertId : string)
  | ResolveAlertRejected (payload : string)
  | OtherSlice.

(** [now] is the clock reading of the reducers that call [new Date()]. *)
Definition reducer (now : string) (state : AlertsState) (action : Action)
  : AlertsState :=
  match action with
  | AddAlert payload => addAlert payload state
  | UpdateAlert payload => updateAlert payload state
  | SetFilters payload => setFilters payload state
  | ClearError => clearError state
  | FetchAlertsPending => fetchAlerts_pending state
  | FetchAlertsFulfilled payload => fetchAlerts_fulfilled payload state
  | FetchAlertsRejected payload => fetchAlerts_rejected payload state
  | AcknowledgeAlertFulfilled alertId => acknowledgeAlert_fulfilled now alertId state
  | ResolveAlertFulfilled alertId => resolveAlert_fulfilled now alertId state
  | AcknowledgeAlertPending _ | AcknowledgeAlertRejected _
  | ResolveAlertPending _ | ResolveAlertRejected _
  | OtherSlice => state
  end.

(** ** Effects of thunks and socket handlers *)

Record HttpRequest : Type := mkRequest {
  method : string;
  url : string;
  body : JsObject
}.

(** What a thunk or a socket handler does, in program order: dispatch an
    action to the store, issue a REST call, or emit a command on the
    channel. *)
Inductive Effect : Type :=
  | Dispatch (action : Action)
  | Http (request : HttpRequest)
  | Emit (event : string) (data : JsObject).

(** The outcome of an awaited REST call: the response data, or a failure
    carrying [error.response?.data?.message]. *)
Inductive Response (A : Type) : Type :=
  | Resolved (data : A)
  | Failed (message : option string).
Arguments Resolved {A} data.
Arguments Failed {A} message.

Module alertsAPI.

Definition getAlerts (filters : JsObject) : HttpRequest :=
  {| method := "GET"; url := "/alerts"; body := filters |}.

Definition acknowledgeAlert (alertId : string) : HttpRequest :=
  {| method := "PUT"; url := "/alerts/" +:+ alertId +:+ "/acknowledge"; body := ∅ |}.

Definition resolveAlert (alertId : string) (notes : JsValue) : HttpRequest :=
  {| method := "PUT"; url := "/alerts/" +:+ alertId +:+ "/resolve";
     body := {[ "resolution_notes" := notes ]} |}.

End alertsAPI.

(** The thunks of [createAsyncThunk]: [pending] is dispatched, the payload
    creator runs (here one REST call), then [fulfilled] with its result or
    [rejected] with the value of [rejectWithValue]. *)
Definition fetchAlerts (filters : JsObject) (response : Response (list JsObject))
  : list Effect :=
  [ Dispatch FetchAlertsPending;
    Http (alertsAPI.getAlerts filters);
    match response with
    | Resolved data => Dispatch (FetchAlertsFulfilled data)
    | Failed message =>
        Dispatch (FetchAlertsRejected (or_else message "Failed to fetch alerts"))
    end ].

Definition acknowledgeAlert (alertId : string) (response : Response unit)
  : list Effect :=
  [ Dispatch (AcknowledgeAlertPending alertId);
    Http (alertsAPI.acknowledgeAlert alertId);
    match response with
    | Resolved _ => Dispatch (AcknowledgeAlertFulfilled alertId)
    | Failed message =>
        Dispatch (AcknowledgeAlertRejected (or_else message "Failed to acknowledge alert"))
    end ].

Definition resolveAlert (alertId : string) (notes : JsValue) (response : Response unit)
  : list Effect :=
  [ Dispatch (ResolveAlertPending alertId);
    Http (alertsAPI.resolveAlert alertId notes);
    match response with
    | Resolved _ => Dispatch (ResolveAlertFulfilled alertId)
    | Failed message =>
        Dispatch (ResolveAlertRejected (or_else message "Failed to resolve alert"))
    end ].

(** ** The store *)

(** [store.dispatch]: the reducer runs and the subscribers are notified
    with the new state, once for every dispatched action. *)
Definition perform (now : string) (state : AlertsState) (e : Effect) : AlertsState :=
  match e with
  | Dispatch action => reducer now state action
  | Http _ | Emit _ _ => state
  end.

(** The store after a run of effects. *)
Definition store_after (now : string) (state : AlertsState) (es : list Effect)
  : AlertsState :=
  foldl (perform now) state es.

(** The states the subscribers of the store are notified with during a
    run: one per dispatch, in order. *)
Fixpoint notified (now : string) (state : AlertsState) (es : list Effect)
  : list AlertsState :=
  match es with
  | [] => []
  | Dispatch action :: es' =>
      let state' := reducer now state action in
      state' :: notified now state' es'
  | _ :: es' => notified now state es'
  end.

(** The REST calls issued during a run. *)
Definition requests (es : list Effect) : list HttpRequest :=
  omap (fun e => match e with Http r => Some r | _ => None end) es.

(** The commands emitted on the channel during a run. *)
Definition emitted (es : list Effect) : list (string * JsObject) :=
  omap (fun e => match e with Emit ev d => Some (ev, d) | _ => None end) es.

(** ** The socket hook *)

(** The events of the channel the hook listens to.  The four data feeds
    ([traffic_update], ...) dispatch to the dashboard slice and are one
    constructor here; [emergency_alert] and [system_update] only raise
    toasts. *)
Inductive SocketEvent : Type :=
  | connect
  | disconnect
  | connect_error
  | new_alert (alert : JsObject)
  | alert_acknowledged (alert_id acknowledged_at acknowledged_by : JsValue)
  | alert_resolved (alert_id resolved_at resolved_by : JsValue)
  | alerts_bulk_acknowledged (alert_ids : list string) (acknowledged_by : JsValue)
  | realtime_update
  | emergency_alert
  | system_update.

(** The filter the hook subscribes with. *)
Definition subscription : JsObject :=
  {[ "severity_levels" := JArray ["high"; "critical"];
     "modules" := JArray ["traffic"; "environment"; "waste"; "energy"; "emergency"] ]}.

Definition acknowledged_patch (id acknowledged_at acknowledged_by : JsValue) : JsObject :=
  {[ "id" := id;
     "status" := JString "acknowledged";
     "acknowledged_at" := acknowledged_at;
     "acknowledged_by" := acknowledged_by ]}.

Definition resolved_patch (id resolved_at resolved_by : JsValue) : JsObject :=
  {[ "id" := id;
     "status" := JString "resolved";
     "resolved_at" := resolved_at;
     "resolved_by" := resolved_by ]}.

(** The handlers the hook registers with [socket.on] once the session is
    authenticated and has a token.  [clock k] is the reading of
    [new Date().toISOString()] in the [k]-th iteration of the bulk
    handler's [forEach].  Console logs and toasts are not part of the
    model. *)
Definition useWebSocket_on (clock : nat → string) (ev : SocketEvent) : list Effect :=
  match ev with
  | connect =>
      [ Emit "join_room" {[ "room" := JString "alerts" ]};
        Emit "join_room" {[ "room" := JString "dashboard" ]};
        Emit "subscribe_alerts" subscription ]
  | disconnect | connect_error => []
  | new_alert alert => [ Dispatch (AddAlert alert) ]
  | alert_acknowledged alert_id acknowledged_at acknowledged_by =>
      [ Dispatch (UpdateAlert
          (acknowledged_patch alert_id acknowledged_at acknowledged_by)) ]
  | alert_resolved alert_id resolved_at resolved_by =>
      [ Dispatch (UpdateAlert (resolved_patch alert_id resolved_at resolved_by)) ]
  | alerts_bulk_acknowledged alert_ids acknowledged_by =>
      imap (fun k alertId =>
              Dispatch (UpdateAlert
                (acknowledged_patch (JString alertId) (JString (clock k))
                   acknowledged_by)))
           alert_ids
  | realtime_update => [ Dispatch OtherSlice ]
  | emergency_alert | system_update => []
  end.

(** The channel as the hook sees it: socket.io's [connected] flag and the
    commands sent so far.  The hook also returns [emitEvent]; its one
    caller, the layout, runs the hook for its effect and discards what it
    returns, so the handlers are the only writers of the channel. *)
Record Channel : Type := mkChannel {
  connected : bool;
  outbox : list (string * JsObject)
}.

Definition closed_channel : Channel := {| connected := false; outbox := [] |}.

(** One event of the channel: socket.io updates [connected] on [connect]
    and [disconnect], then the hook's handler runs. *)
Definition channel_step (clock : nat → string) (ch : Channel) (ev : SocketEvent)
  : Channel :=
  {| connected :=
       match ev with
       | connect => true
       | disconnect => false
       | _ => connected ch
       end;
     outbox := outbox ch ++ emitted (useWebSocket_on clock ev) |}.

Definition channel_run (clock : nat → string) (ch : Channel) (evs : list SocketEvent)
  : Channel :=
  foldl (channel_step clock) ch evs.

(** The filter of the latest [subscribe_alerts] command in an outbox. *)
Definition last_subscription (sent : list (string * JsObject)) : option JsObject :=
  snd <$> last (List.filter (fun c => bool_decide (fst c = "subscribe_alerts")) sent).

(** The store driven by the channel: each event's effects in order. *)
Definition store_on (now : string) (clock : nat → string) (state : AlertsState)
    (ev : SocketEvent) : AlertsState :=
  store_after now state (useWebSocket_on clock ev).

(** * Observations

    What the properties below read off a run of the model. *)

(** The part of a run that precedes the response of its REST call: the
    effects up to and including the request. *)
Fixpoint until_request (es : list Effect) : list Effect :=
  match es with
  | [] => []
  | Http r :: _ => [Http r]
  | e :: es' => e :: until_request es'
  end.

Definition ids (l : list JsObject) : list JsValue := (fun a => get a "id") <$> l.

(** [id] is the id of a record of [state.alerts]. *)
Definition stored (id : JsValue) (state : AlertsState) : Prop :=
  id ∈ ids (alerts state).

(** [state.activeAlerts] is the active part of [state.alerts]. *)
Definition in_sync (state : AlertsState) : Prop :=
  activeAlerts state = List.filter is_active (alerts state).

(** The store after a sequence of actions, from the initial state. *)
Definition after_actions (now : string) (actions : list Action) : AlertsState :=
  foldl (reducer now) initialState actions.

(** The store after the same [new_alert] event was handled [n] times. *)
Definition redelivered (now : string) (clock : nat → string) (alert : JsObject)
    (n : nat) (state : AlertsState) : AlertsState :=
  Nat.iter n (fun s => store_on now clock s (new_alert alert)) state.

(** The store after one [alert_acknowledged] event per id, in order, the
    [j]-th stamped with the clock reading [clock (k + j)]. *)
Fixpoint individually (now : string) (clock : nat → string) (k : nat)
    (alert_ids : list string) (acknowledged_by : JsValue) (state : AlertsState)
  : AlertsState :=
  match alert_ids with
  | [] => state
  | alertId :: rest =>
      individually now clock (S k) rest acknowledged_by
        (store_on now clock state
           (alert_acknowledged (JString alertId) (JString (clock k)) acknowledged_by))
  end.

(** The dispatches of the bulk handler's loop from its [k]-th iteration
    on. *)
Definition bulk_dispatches (clock : nat → string) (k : nat) (acknowledged_by : JsValue)
    (alert_ids : list string) : list Effect :=
  imap (fun j alertId =>
          Dispatch (UpdateAlert
            (acknowledged_patch (JString alertId) (JString (clock (k + j)))
               acknowledged_by)))
       alert_ids.

(** What the [connect] handler sends. *)
Definition connect_commands : list (string * JsObject) :=
  [ ("join_room", {[ "room" := JString "alerts" ]});
    ("join_room", {[ "room" := JString "dashboard" ]});
    ("subscribe_alerts", subscription) ].

(** Every [subscribe_alerts] command of an outbox carries the hook's
    filter. *)
Definition one_filter (sent : list (string * JsObject)) : Prop :=
  Forall (fun c => fst c = "subscribe_alerts" → snd c = subscription) sent.

(** At most one element of the array satisfies [q]. *)
Fixpoint at_most_one {A : Type} (q : A → bool) (l : list A) : Prop :=
  match l with
  | [] => True
  | x :: t => (q x = true → ∀ b, b ∈ t → q b = false) ∧ at_most_one q t
  end.

(** [i = l.findIndex(q); if (i !== -1) l[i] = f(l[i])]. *)
Definition alter_first {A : Type} (q : A → bool) (f : A → A) (l : list A) : list A :=
  match findIndex q l with Some i => alter f i l | None => l end.

(** [i = l.findIndex(q); if (i !== -1) l.splice(i, 1)]. *)
Definition delete_first {A : Type} (q : A → bool) (l : list A) : list A :=
  match findIndex q l with Some k => delete k l | None => l end.

(** No two values are equal under [===]. *)
Fixpoint distinct (vs : list JsValue) : Prop :=
  match vs with
  | [] => True
  | v :: t => Forall (fun u => strict_eq u v = false) t ∧ distinct t
  end.

Definition distinct_ids (l : list JsObject) : Prop := distinct (ids l).

(** What keeping the view in sync asks of an action: a pushed alert has a
    new id, a patch carries a status other than ['active'], a snapshot
    has no id twice. *)
Definition admissible (state : AlertsState) (action : Action) : Prop :=
  match action with
  | AddAlert payload =>
      findIndex (id_is (get payload "id")) (alerts state) = None
  | UpdateAlert payload =>
      ∃ status, payload !! "status" = Some status ∧
                strict_eq status (JString "active") = false
  | FetchAlertsFulfilled payload => distinct_ids payload
  | _ => True
  end.

(** Every action of the run is admissible in the state it meets. *)
Fixpoint admissible_run (now : string) (state : AlertsState) (actions : list Action)
  : Prop :=
  match actions with
  | [] => True
  | action :: rest =>
      admissible state action ∧ admissible_run now (reducer now state action) rest
  end.

(** ** Sample records *)

Definition alert_A1 : JsObject :=
  {[ "id" := JString "A1"; "status" := JString "active";
     "severity" := JString "high"; "created_at" := JString "2024-01-01T00:00:00Z" ]}.

Definition alert_A2 : JsObject :=
  {[ "id" := JString "A2"; "status" := JString "active";
     "severity" := JString "critical"; "created_at" := JString "2024-01-01T00:05:00Z" ]}.

Definition acknowledged_A1 : JsObject :=
  {[ "id" := JString "A1"; "status" := JString "acknowledged";
     "acknowledged_at" := JString "2024-01-01T09:00:00Z" ]}.

Definition resolved_A1 : JsObject :=
  {[ "id" := JString "A1"; "status" := JString "resolved";
     "resolved_at" := JString "2024-01-01T10:00:00Z" ]}.

(** * More of the client

    The rest of the slice's behaviour, the selection and grouping logic
    of the alerts page, the dashboard and auth slices the hook works
    with, the HTTP interceptors and the route guard. *)

(** ** Runs of the alerts slice *)

(** The store after a sequence of actions from the initial state, each
    reduced at its own clock reading. *)
Definition after_timed (timed : list (string * Action)) : AlertsState :=
  foldl (fun state ta => reducer (fst ta) state (snd ta)) initialState timed.

(** Every record of the view is active and carries a stored id, and the
    view is no longer than the store. *)
Definition view_sound (state : AlertsState) : Prop :=
  Forall (fun a => is_active a = true) (activeAlerts state) ∧
  (∀ v, v ∈ ids (activeAlerts state) → v ∈ ids (alerts state)) ∧
  length (activeAlerts state) ≤ length (alerts state).


(** ** The rest of the hook *)

(** [emitEvent], which the hook returns: the command is sent when the
    socket is connected and dropped otherwise. *)
Definition emitEvent (ch : Channel) (event : string) (data : JsObject) : Channel :=
  if connected ch
  then {| connected := connected ch; outbox := outbox ch ++ [(event, data)] |}
  else ch.

Definition is_connect (ev : SocketEvent) : bool :=
  match ev with connect => true | _ => false end.

(** The two events on which socket.io changes [connected]. *)
Definition is_lifecycle (ev : SocketEvent) : bool :=
  match ev with connect | disconnect => true | _ => false end.

(** The events whose handlers dispatch nothing to the alerts slice. *)
Definition is_quiet (ev : SocketEvent) : bool :=
  match ev with
  | new_alert _ | alert_acknowledged _ _ _ | alert_resolved _ _ _
  | alerts_bulk_acknowledged _ _ => false
  | _ => true
  end.


(** ** The alerts page *)

(** [{ active, acknowledged, resolved }], the groups of the page. *)
Record StatusGroups : Type := mkGroups {
  active : list JsObject;
  acknowledged : list JsObject;
  resolved : list JsObject
}.

Definition has_status (status : string) (alert : JsObject) : bool :=
  strict_eq (get alert "status") (JString status).

Module AlertsPage.

(** [handleFilterChange]: one key of the filters is set. *)
Definition handleFilterChange (key value : string) : list Effect :=
  [ Dispatch (SetFilters {[ key := JString value ]}) ].

(** The effect on [filters]: the alerts are fetched again with the
    filters of the store. *)
Definition refetch (state : AlertsState) (response : Response (list JsObject))
  : list Effect :=
  fetchAlerts (filters state) response.

(** [prev.includes(alertId)]. *)
Definition includes (alertId : JsValue) (prev : list JsValue) : bool :=
  existsb (fun id => strict_eq id alertId) prev.

(** The updater [handleSelectAlert] passes to [setSelectedAlerts]. *)
Definition handleSelectAlert (alertId : JsValue) (prev : list JsValue) : list JsValue :=
  if includes alertId prev
  then List.filter (fun id => negb (strict_eq id alertId)) prev
  else prev ++ [alertId].

(** [handleSelectAll]: the new selection. *)
Definition handleSelectAll (selectedAlerts : list JsValue) (filteredAlerts : list JsObject)
  : list JsValue :=
  if length selectedAlerts =? length filteredAlerts
  then []
  else (fun alert => get alert "id") <$> filteredAlerts.

Definition alertsByStatus (filteredAlerts : list JsObject) : StatusGroups :=
  {| active := List.filter (has_status "active") filteredAlerts;
     acknowledged := List.filter (has_status "acknowledged") filteredAlerts;
     resolved := List.filter (has_status "resolved") filteredAlerts |}.

End AlertsPage.


(** ** The dashboard slice *)

(** The four data feeds of the channel and the key each one writes. *)
Inductive Feed : Type := traffic | environment | waste | energy.

#[global] Instance Feed_eq_dec : EqDecision Feed.
Proof. solve_decision. Defined.

Definition feed_key (feed : Feed) : string :=
  match feed with
  | traffic => "traffic"
  | environment => "environment"
  | waste => "waste"
  | energy => "energy"
  end.

Module dashboardSlice.

(** [S] is the type of the overview the server returns, [V] the type of
    the values of [realTimeData]; the slice looks into neither. *)
Record DashboardState (S V : Type) : Type := mkState {
  stats : option S;
  realTimeData : option (gmap string V);
  isLoading : bool;
  error : option string;
  lastUpdated : option string
}.
Arguments mkState {S V}.
Arguments stats {S V}.
Arguments realTimeData {S V}.
Arguments isLoading {S V}.
Arguments error {S V}.
Arguments lastUpdated {S V}.

Definition initialState {S V : Type} : DashboardState S V :=
  {| stats := None; realTimeData := None; isLoading := false;
     error := None; lastUpdated := None |}.

(** [{ ...state.realTimeData, ...action.payload }]; spreading [null]
    adds nothing. *)
Definition updateRealTimeData {S V : Type} (now : string) (payload : gmap string V)
    (state : DashboardState S V) : DashboardState S V :=
  {| stats := stats state;
     realTimeData := Some (payload ∪ default ∅ (realTimeData state));
     isLoading := isLoading state;
     error := error state;
     lastUpdated := Some now |}.

Definition clearError {S V : Type} (state : DashboardState S V) : DashboardState S V :=
  {| stats := stats state;
     realTimeData := realTimeData state;
     isLoading := isLoading state;
     error := None;
     lastUpdated := lastUpdated state |}.

Definition fetchDashboardOverview_pending {S V : Type} (state : DashboardState S V)
  : DashboardState S V :=
  {| stats := stats state;
     realTimeData := realTimeData state;
     isLoading := true;
     error := None;
     lastUpdated := lastUpdated state |}.

Definition fetchDashboardOverview_fulfilled {S V : Type} (now : string) (payload : S)
    (state : DashboardState S V) : DashboardState S V :=
  {| stats := Some payload;
     realTimeData := realTimeData state;
     isLoading := false;
     error := error state;
     lastUpdated := Some now |}.

Definition fetchDashboardOverview_rejected {S V : Type} (payload : string)
    (state : DashboardState S V) : DashboardState S V :=
  {| stats := stats state;
     realTimeData := realTimeData state;
     isLoading := false;
     error := Some payload;
     lastUpdated := lastUpdated state |}.

Definition fetchRealTimeData_fulfilled {S V : Type} (now : string)
    (payload : gmap string V) (state : DashboardState S V) : DashboardState S V :=
  {| stats := stats state;
     realTimeData := Some payload;
     isLoading := isLoading state;
     error := error state;
     lastUpdated := Some now |}.

Inductive Action (S V : Type) : Type :=
  | UpdateRealTimeData (payload : gmap string V)
  | ClearError
  | FetchDashboardOverviewPending
  | FetchDashboardOverviewFulfilled (payload : S)
  | FetchDashboardOverviewRejected (payload : string)
  | FetchRealTimeDataPending
  | FetchRealTimeDataFulfilled (payload : gmap string V)
  | FetchRealTimeDataRejected (payload : string)
  | OtherSlice.
Arguments UpdateRealTimeData {S V}.
Arguments ClearError {S V}.
Arguments FetchDashboardOverviewPending {S V}.
Arguments FetchDashboardOverviewFulfilled {S V}.
Arguments FetchDashboardOverviewRejected {S V}.
Arguments FetchRealTimeDataPending {S V}.
Arguments FetchRealTimeDataFulfilled {S V}.
Arguments FetchRealTimeDataRejected {S V}.
Arguments OtherSlice {S V}.

Definition reducer {S V : Type} (now : string) (state : DashboardState S V)
    (action : Action S V) : DashboardState S V :=
  match action with
  | UpdateRealTimeData payload => updateRealTimeData now payload state
  | ClearError => clearError state
  | FetchDashboardOverviewPending => fetchDashboardOverview_pending state
  | FetchDashboardOverviewFulfilled payload =>
      fetchDashboardOverview_fulfilled now payload state
  | FetchDashboardOverviewRejected payload =>
      fetchDashboardOverview_rejected payload state
  | FetchRealTimeDataFulfilled payload => fetchRealTimeData_fulfilled now payload state
  | FetchRealTimeDataPending | FetchRealTimeDataRejected _ | OtherSlice => state
  end.

(** The two thunks: the actions each run dispatches, for the response
    of its one REST call ([GET /dashboard/overview],
    [GET /dashboard/real-time-data]). *)
Definition fetchDashboardOverview {S V : Type} (response : Response S)
  : list (Action S V) :=
  [ FetchDashboardOverviewPending;
    match response with
    | Resolved data => FetchDashboardOverviewFulfilled data
    | Failed message =>
        FetchDashboardOverviewRejected (or_else message "Failed to fetch dashboard data")
    end ].

Definition fetchRealTimeData {S V : Type} (response : Response (gmap string V))
  : list (Action S V) :=
  [ FetchRealTimeDataPending;
    match response with
    | Resolved data => FetchRealTimeDataFulfilled data
    | Failed message =>
        FetchRealTimeDataRejected (or_else message "Failed to fetch real-time data")
    end ].

End dashboardSlice.

(** The handlers of [traffic_update], [environment_update],
    [waste_update] and [energy_update]: the data goes under the feed's
    key. *)
Definition useWebSocket_on_feed {S V : Type} (feed : Feed) (data : V)
  : dashboardSlice.Action S V :=
  dashboardSlice.UpdateRealTimeData {[ feed_key feed := data ]}.

(** The dashboard after a run of feed events, each with the clock reading
    of its reduction. *)
Definition after_feeds {S V : Type} (state : dashboardSlice.DashboardState S V)
    (updates : list (string * Feed * V)) : dashboardSlice.DashboardState S V :=
  foldl (fun s u => dashboardSlice.reducer (fst (fst u)) s
                      (useWebSocket_on_feed (snd (fst u)) (snd u)))
        state updates.

(** What the dashboard shows of [feed]. *)
Definition feed_data {S V : Type} (state : dashboardSlice.DashboardState S V)
    (feed : Feed) : option V :=
  dashboardSlice.realTimeData state ≫= (fun data => data !! feed_key feed).


(** ** The auth slice, the token store and the HTTP interceptors *)

(** The outcome of a call through the axios instance: the response data,
    or an error with the status of its response (none for a network
    error) and [error.response?.data?.message]. *)
Inductive Reply (A : Type) : Type :=
  | Ok (data : A)
  | Err (status : option nat) (message : option string).
Arguments Ok {A} data.
Arguments Err {A} status message.

(** A falsy token: [null] or the empty string. *)
Definition truthy (x : option string) : bool :=
  match x with
  | Some s => negb (bool_decide (s = ""))
  | None => false
  end.

(** The request interceptor: the [Authorization] header of a request,
    from the [token] item of localStorage. *)
Definition authorization (stored : option string) : option string :=
  match stored with
  | Some token => if truthy (Some token) then Some ("Bearer " +:+ token) else None
  | None => None
  end.

(** The body of [POST /auth/login]. *)
Definition credentials (email password : string) : JsObject :=
  {[ "email" := JString email; "password" := JString password ]}.

(** The data of a successful login. *)
Record LoginResponse : Type := mkLogin {
  access_token : string;
  login_user : JsObject
}.

Module authSlice.

Record AuthState : Type := mkState {
  user : option JsObject;
  token : option string;
  isAuthenticated : bool;
  isLoading : bool;
  error : option string
}.

(** [stored] is [localStorage.getItem('token')] when the module loads. *)
Definition initialState (stored : option string) : AuthState :=
  {| user := None; token := stored; isAuthenticated := false;
     isLoading := false; error := None |}.

Inductive Action : Type :=
  | ClearError
  | LoginPending
  | LoginFulfilled (payload : LoginResponse)
  | LoginRejected (payload : string)
  | CheckAuthPending
  | CheckAuthFulfilled (payload : JsObject)
  | CheckAuthRejected (payload : string)
  | LogoutPending
  | LogoutFulfilled
  | UpdateProfilePending
  | UpdateProfileFulfilled (payload : JsObject)
  | UpdateProfileRejected (payload : string)
  | OtherSlice.

Definition reducer (state : AuthState) (action : Action) : AuthState :=
  match action with
  | ClearError =>
      {| user := user state; token := token state;
         isAuthenticated := isAuthenticated state; isLoading := isLoading state;
         error := None |}
  | LoginPending =>
      {| user := user state; token := token state;
         isAuthenticated := isAuthenticated state; isLoading := true;
         error := None |}
  | LoginFulfilled payload =>
      {| user := Some (login_user payload); token := Some (access_token payload);
         isAuthenticated := true; isLoading := false; error := None |}
  | LoginRejected payload =>
      {| user := None; token := None; isAuthenticated := false; isLoading := false;
         error := Some payload |}
  | CheckAuthPending =>
      {| user := user state; token := token state;
         isAuthenticated := isAuthenticated state; isLoading := true;
         error := error state |}
  | CheckAuthFulfilled payload =>
      {| user := Some payload; token := token state; isAuthenticated := true;
         isLoading := false; error := None |}
  | CheckAuthRejected _ =>
      {| user := None; token := None; isAuthenticated := false; isLoading := false;
         error := None |}
  | LogoutFulfilled =>
      {| user := None; token := None; isAuthenticated := false;
         isLoading := isLoading state; error := None |}
  | UpdateProfileFulfilled payload =>
      {| user := Some (spread (default ∅ (user state)) payload); token := token state;
         isAuthenticated := isAuthenticated state; isLoading := isLoading state;
         error := error state |}
  | LogoutPending | UpdateProfilePending | UpdateProfileRejected _ | OtherSlice => state
  end.

End authSlice.

(** The browser session the thunks run in: the auth slice, the [token]
    item of localStorage, the requests sent so far, each with the
    [Authorization] header the request interceptor gave it, and whether
    the response interceptor has sent the browser to the login page. *)
Record Session : Type := mkSession {
  store : authSlice.AuthState;
  storage : option string;
  sent : list (HttpRequest * option string);
  redirected : bool
}.

(** The session of a page load. *)
Definition fresh_session (stored : option string) : Session :=
  {| store := authSlice.initialState stored; storage := stored;
     sent := []; redirected := false |}.

Definition dispatch (action : authSlice.Action) (w : Session) : Session :=
  {| store := authSlice.reducer (store w) action; storage := storage w;
     sent := sent w; redirected := redirected w |}.

Definition setItem (value : string) (w : Session) : Session :=
  {| store := store w; storage := Some value; sent := sent w;
     redirected := redirected w |}.

Definition removeItem (w : Session) : Session :=
  {| store := store w; storage := None; sent := sent w;
     redirected := redirected w |}.

(** [error.response?.status === 401]. *)
Definition unauthorized {A : Type} (reply : Reply A) : bool :=
  match reply with
  | Err status _ => bool_decide (status = Some 401)
  | Ok _ => false
  end.

(** A call through the axios instance: the request interceptor reads the
    token, and on a 401 the response interceptor removes it and sends the
    browser to [/auth/login]. *)
Definition api_call {A : Type} (request : HttpRequest) (reply : Reply A) (w : Session)
  : Session :=
  let w1 := {| store := store w; storage := storage w;
               sent := sent w ++ [(request, authorization (storage w))];
               redirected := redirected w |} in
  if unauthorized reply
  then {| store := store w1; storage := None; sent := sent w1; redirected := true |}
  else w1.

Module authAPI.

Definition login (body : JsObject) : HttpRequest :=
  {| method := "POST"; url := "/auth/login"; body := body |}.

Definition getProfile : HttpRequest :=
  {| method := "GET"; url := "/auth/profile"; body := ∅ |}.

Definition updateProfile (profileData : JsObject) : HttpRequest :=
  {| method := "PUT"; url := "/auth/profile"; body := profileData |}.

End authAPI.

(** The message a thunk rejects with. *)
Definition rejection {A : Type} (reply : Reply A) (fallback : string) : string :=
  match reply with
  | Err _ message => or_else message fallback
  | Ok _ => fallback
  end.

Definition login (body : JsObject) (reply : Reply LoginResponse) (w : Session) : Session :=
  let w1 := api_call (authAPI.login body) reply (dispatch authSlice.LoginPending w) in
  match reply with
  | Ok response =>
      dispatch (authSlice.LoginFulfilled response) (setItem (access_token response) w1)
  | Err _ _ => dispatch (authSlice.LoginRejected (rejection reply "Login failed")) w1
  end.

Definition checkAuth (reply : Reply JsObject) (w : Session) : Session :=
  let w1 := dispatch authSlice.CheckAuthPending w in
  if truthy (storage w1) then
    let w2 := api_call authAPI.getProfile reply w1 in
    match reply with
    | Ok response => dispatch (authSlice.CheckAuthFulfilled response) w2
    | Err _ _ =>
        dispatch (authSlice.CheckAuthRejected (rejection reply "Authentication failed"))
          (removeItem w2)
    end
  else
    dispatch (authSlice.CheckAuthRejected "Authentication failed") (removeItem w1).

Definition logout (w : Session) : Session :=
  dispatch authSlice.LogoutFulfilled (removeItem (dispatch authSlice.LogoutPending w)).

Definition updateProfile (profileData : JsObject) (reply : Reply JsObject) (w : Session)
  : Session :=
  let w1 := api_call (authAPI.updateProfile profileData) reply
              (dispatch authSlice.UpdateProfilePending w) in
  match reply with
  | Ok response => dispatch (authSlice.UpdateProfileFulfilled response) w1
  | Err _ _ =>
      dispatch (authSlice.UpdateProfileRejected (rejection reply "Profile update failed")) w1
  end.

(** What the pages do with the auth slice. *)
Inductive AuthCall : Type :=
  | CallLogin (body : JsObject) (reply : Reply LoginResponse)
  | CallCheckAuth (reply : Reply JsObject)
  | CallLogout
  | CallUpdateProfile (profileData : JsObject) (reply : Reply JsObject)
  | CallClearError.

Definition auth_step (w : Session) (call : AuthCall) : Session :=
  match call with
  | CallLogin body reply => login body reply w
  | CallCheckAuth reply => checkAuth reply w
  | CallLogout => logout w
  | CallUpdateProfile profileData reply => updateProfile profileData reply w
  | CallClearError => dispatch authSlice.ClearError w
  end.

(** The hook opens its socket for this state of the slice:
    [isAuthenticated && token]; the token goes into the handshake. *)
Definition socket_token (auth : authSlice.AuthState) : option string :=
  if authSlice.isAuthenticated auth && truthy (authSlice.token auth)
  then authSlice.token auth else None.


(** ** The route guard and the navigation of the layout *)

(** [s.includes(sub)] on strings. *)
Fixpoint string_includes (sub s : string) : bool :=
  String.prefix sub s ||
  match s with
  | EmptyString => false
  | String _ s' => string_includes sub s'
  end.

(** [user?.permissions?.includes(p)] as a condition: [undefined] (no
    user, no [permissions]) is falsy. *)
Definition has_permission (user : option JsObject) (p : string) : bool :=
  match user with
  | Some u =>
      match get u "permissions" with
      | JArray xs => existsb (String.eqb p) xs
      | JString s => string_includes p s
      | JUndefined => false
      end
  | None => false
  end.

(** [user?.role]. *)
Definition role_of (user : option JsObject) : JsValue :=
  match user with
  | Some u => get u "role"
  | None => JUndefined
  end.

Inductive Rendered : Type :=
  | NavigateLogin
  | NavigateHome
  | Children.

Definition ProtectedRoute (requiredRole requiredPermission : option string)
    (auth : authSlice.AuthState) : Rendered :=
  if negb (authSlice.isAuthenticated auth) then NavigateLogin
  else if truthy requiredRole &&
          negb (strict_eq (role_of (authSlice.user auth))
                  (JString (default "" requiredRole)))
  then NavigateHome
  else if truthy requiredPermission &&
          negb (has_permission (authSlice.user auth) (default "" requiredPermission))
  then NavigateHome
  else Children.

Record NavItem : Type := mkNav {
  name : string;
  href : string;
  roles : list string
}.

Definition navigation : list NavItem :=
  [ {| name := "Dashboard"; href := "/";
       roles := ["admin"; "traffic_officer"; "environment_officer"; "utility_officer";
                 "emergency_coordinator"] |};
    {| name := "Traffic"; href := "/traffic"; roles := ["admin"; "traffic_officer"] |};
    {| name := "Environment"; href := "/environment";
       roles := ["admin"; "environment_officer"] |};
    {| name := "Waste"; href := "/waste"; roles := ["admin"; "utility_officer"] |};
    {| name := "Energy"; href := "/energy"; roles := ["admin"; "utility_officer"] |};
    {| name := "Emergency"; href := "/emergency";
       roles := ["admin"; "emergency_coordinator"] |};
    {| name := "Analytics"; href := "/analytics"; roles := ["admin"] |};
    {| name := "Alerts"; href := "/alerts";
       roles := ["admin"; "traffic_officer"; "environment_officer"; "utility_officer";
                 "emergency_coordinator"] |} ].

(** [user?.role || '']: a missing or empty role counts as ['']. *)
Definition role_or_empty (user : option JsObject) : JsValue :=
  match role_of user with
  | JUndefined => JString ""
  | JString s => JString s
  | JArray xs => JArray xs
  end.

Definition filteredNavigation (user : option JsObject) : list NavItem :=
  List.filter
    (fun item => existsb (fun r => strict_eq (JString r) (role_or_empty user)) (roles item))
    navigation.

(** The pages the routes of the app serve, each behind a
    [ProtectedRoute] with neither a role nor a permission. *)
Definition route_guard (auth : authSlice.AuthState) : Rendered :=
  ProtectedRoute None None auth.


(** While the response interceptor has not redirected, the token of the
    slice is the one localStorage holds. *)
Definition tokens_agree (w : Session) : Prop :=
  redirected w = false → ∀ t, authSlice.token (store w) = Some t → storage w = Some t.

(** An authenticated slice has a user. *)
Definition user_known (w : Session) : Prop :=
  authSlice.isAuthenticated (store w) = true → authSlice.user (store w) ≠ None.

(** The session after a run of calls from a page load. *)
Definition session_after (stored : option string) (calls : list AuthCall) : Session :=
  foldl auth_step (fresh_session stored) calls.


(** ** The login page *)

Module LoginPage.

(** [handleSubmit]: the session after it, and where it navigates.  An
    empty field stops it before anything is dispatched. *)
Definition handleSubmit (email password : string) (reply : Reply LoginResponse)
    (w : Session) : Session * option string :=
  if bool_decide (email = "") || bool_decide (password = "") then (w, None)
  else (login (credentials email password) reply w,
        match reply with
        | Ok _ => Some "/"
        | Err _ _ => None
        end).

End LoginPage.

(** * Properties *)

(** ** Values, objects and arrays *)

Lemma strict_eq_true (x y : JsValue) : strict_eq x y = true → x = y.
Proof.
  destruct x, y; simpl; try discriminate; auto.
  intros H. apply bool_decide_eq_true in H. by subst.
Qed.

Lemma strict_eq_string (a b : string) :
  strict_eq (JString a) (JString b) = true ↔ a = b.
Proof. simpl. by rewrite bool_decide_eq_true. Qed.

Lemma get_spread (old payload : JsObject) (k : string) :
  get (spread old payload) k =
  match payload !! k with Some v => v | None => get old k end.
Proof.
  unfold get, spread. rewrite lookup_union.
  destruct (payload !! k), (old !! k); reflexivity.
Qed.

Lemma get_assign (k k' : string) (v : JsValue) (o : JsObject) :
  get (assign k v o) k' = if decide (k = k') then v else get o k'.
Proof.
  unfold get, assign. rewrite lookup_insert. by case_decide.
Qed.

(** A patch merged into the record [findIndex] selected keeps its id. *)
Lemma spread_keeps_id (old payload : JsObject) :
  id_is (get payload "id") old = true →
  get (spread old payload) "id" = get old "id".
Proof.
  unfold id_is. intros H. apply strict_eq_true in H.
  rewrite get_spread. unfold get in *.
  destruct (payload !! "id"); simpl in *; congruence.
Qed.

Section FindIndex.
Context {A : Type} (p : A → bool).

Lemma findIndex_Some (l : list A) (i : nat) :
  findIndex p l = Some i →
  ∃ x, l !! i = Some x ∧ p x = true ∧
       ∀ j y, j < i → l !! j = Some y → p y = false.
Proof.
  revert i. induction l as [|x l IH]; intros i; simpl; [discriminate|].
  destruct (p x) eqn:Hx.
  - intros [= <-]. exists x. repeat split; auto. intros; lia.
  - destruct (findIndex p l) as [k|]; simpl; [|discriminate].
    intros [= <-]. destruct (IH k eq_refl) as (y & Hy & Hp & Hlt).
    exists y. repeat split; auto.
    intros [|j] z Hj; simpl; [congruence|].
    apply Hlt. lia.
Qed.

Lemma findIndex_None (l : list A) :
  findIndex p l = None ↔ ∀ x, x ∈ l → p x = false.
Proof.
  induction l as [|x l IH]; simpl.
  - split; [intros _ y Hy; by apply elem_of_nil in Hy | done].
  - destruct (p x) eqn:Hx.
    + split; [discriminate|]. intros H.
      specialize (H x (list_elem_of_here _ _)). congruence.
    + destruct (findIndex p l) as [k|]; simpl.
      * split; [discriminate|]. intros H.
        assert (Some k = None) as Hk; [|discriminate].
        apply IH. intros y Hy. apply H. by apply list_elem_of_further.
      * split; [|done]. intros _ y Hy.
        apply elem_of_cons in Hy as [->|Hy]; [done|]. by apply IH.
Qed.

Lemma findIndex_not_selected (l : list A) (i j : nat) (x : A) :
  findIndex p l = Some i → l !! j = Some x → p x = false → i ≠ j.
Proof.
  intros Hi Hj Hx ->. apply findIndex_Some in Hi as (y & Hy & Hp & _).
  congruence.
Qed.
End FindIndex.

(** ** updateAlert: frame *)

(** C9: [updateAlert] never inserts or deletes a record of [state.alerts]
    (its length is preserved, also when the payload's id is absent), and
    every record whose id is not the payload's is left as it was, at the
    same index. *)
Theorem updateAlert_frame (payload : JsObject) (state : AlertsState) :
  length (alerts (updateAlert payload state)) = length (alerts state) ∧
  (findIndex (id_is (get payload "id")) (alerts state) = None →
   alerts (updateAlert payload state) = alerts state) ∧
  ∀ (i : nat) (alert : JsObject),
    alerts state !! i = Some alert →
    id_is (get payload "id") alert = false →
    alerts (updateAlert payload state) !! i = Some alert.
Proof.
  unfold updateAlert; simpl.
  destruct (findIndex _ (alerts state)) as [index|] eqn:Hfind.
  - split; [apply length_alter|]. split; [discriminate|].
    intros i alert Hi Hid.
    rewrite list_lookup_alter_ne; [done|].
    eapply findIndex_not_selected; eauto.
  - repeat split; auto.
Qed.

Lemma updateAlert_frame_witness :
  let payload := acknowledged_patch (JString "A2") (JString "t1") (JString "op") in
  let a1 : JsObject := {[ "id" := JString "A1"; "status" := JString "active" ]} in
  let a2 : JsObject := {[ "id" := JString "A2"; "status" := JString "active" ]} in
  let state := fetchAlerts_fulfilled [a1; a2] initialState in
  alerts (updateAlert payload state) !! 0 = Some a1.
Proof.
  intros payload a1 a2 state.
  apply (updateAlert_frame payload state); reflexivity.
Defined.

(** ** addAlert: prepend *)

Lemma addAlert_alerts (payload : JsObject) (state : AlertsState) :
  alerts (addAlert payload state) = payload :: alerts state.
Proof. unfold addAlert. by destruct (strict_eq _ _). Qed.

Lemma addAlert_activeAlerts (payload : JsObject) (state : AlertsState) :
  activeAlerts (addAlert payload state) =
  if is_active payload then payload :: activeAlerts state else activeAlerts state.
Proof. unfold addAlert, is_active. by destruct (strict_eq _ _). Qed.

Lemma new_alert_sequence (now : string) (clock : nat → string)
    (payloads : list JsObject) (state : AlertsState) :
  alerts (foldl (store_on now clock) state (new_alert <$> payloads)) =
  reverse payloads ++ alerts state.
Proof.
  revert state. induction payloads as [|p ps IH]; intros state; simpl; [done|].
  rewrite IH. unfold store_on, store_after; simpl.
  rewrite addAlert_alerts, reverse_cons, <- app_assoc. done.
Qed.

(** C10: [addAlert] puts the new record at index 0 of [state.alerts] and
    shifts the others by one; it puts it at index 0 of
    [state.activeAlerts] when its status is ['active'] and leaves that
    list alone otherwise; so the alerts of a run of [new_alert] events
    are stored latest arrival first. *)
Theorem addAlert_prepends (now : string) (clock : nat → string)
    (payload : JsObject) (state : AlertsState) :
  alerts (addAlert payload state) !! 0 = Some payload ∧
  (∀ i : nat, alerts (addAlert payload state) !! S i = alerts state !! i) ∧
  activeAlerts (addAlert payload state) =
    (if is_active payload then payload :: activeAlerts state
     else activeAlerts state) ∧
  ∀ payloads : list JsObject,
    alerts (foldl (store_on now clock) state (new_alert <$> payloads)) =
    reverse payloads ++ alerts state.
Proof.
  rewrite addAlert_alerts, addAlert_activeAlerts.
  split; [done|]. split; [done|]. split; [done|].
  intros payloads. apply new_alert_sequence.
Qed.

(** ** new_alert: redelivery *)

(** C3, as stated, fails: handling the same [new_alert] twice does not
    give the store that handling it once gives; the record is stored
    twice. *)
Lemma new_alert_not_idempotent :
  let once := redelivered "" (fun _ => "") alert_A1 1 initialState in
  let twice := redelivered "" (fun _ => "") alert_A1 2 initialState in
  alerts once = [alert_A1] ∧
  alerts twice = [alert_A1; alert_A1] ∧
  twice ≠ once.
Proof.
  intros once twice. split; [reflexivity|]. split; [reflexivity|].
  intros H. apply (f_equal (fun s => length (alerts s))) in H.
  vm_compute in H. discriminate.
Qed.

(** C3, amended: every [new_alert] is an insert at the front.  Handling
    the same event twice stores the record twice (in [state.activeAlerts]
    too when it is active), so the store always differs from the one a
    single delivery gives, and a record whose id is already present is
    added beside the old one, which stays as it was, one index later. *)
Theorem new_alert_inserts_again (now : string) (clock : nat → string)
    (alert : JsObject) (state : AlertsState) :
  alerts (redelivered now clock alert 2 state) = alert :: alert :: alerts state ∧
  activeAlerts (redelivered now clock alert 2 state) =
    (if is_active alert then alert :: alert :: activeAlerts state
     else activeAlerts state) ∧
  redelivered now clock alert 2 state ≠ redelivered now clock alert 1 state ∧
  ∀ (i : nat), alerts (store_on now clock state (new_alert alert)) !! S i = alerts state !! i.
Proof.
  unfold redelivered, store_on, store_after; simpl.
  rewrite !addAlert_alerts, !addAlert_activeAlerts.
  split; [done|]. split; [by destruct (is_active alert)|].
  split; [|done].
  intros H. apply (f_equal (fun s => length (alerts s))) in H.
  rewrite !addAlert_alerts in H. simpl in H. lia.
Qed.

(** ** alert_acknowledged after resolution *)

(** C2, as stated, fails: an [alert_acknowledged] event for a resolved
    alert turns its status into ['acknowledged']. *)
Lemma acknowledge_downgrades_resolved :
  let state := fetchAlerts_fulfilled [resolved_A1] initialState in
  let state' := store_on "" (fun _ => "") state
                  (alert_acknowledged (JString "A1") (JString "2024-01-01T11:00:00Z")
                     (JString "operator")) in
  alerts state = [resolved_A1] ∧
  get resolved_A1 "id" = JString "A1" ∧
  get resolved_A1 "status" = JString "resolved" ∧
  (fun a => get a "status") <$> alerts state' !! 0 = Some (JString "acknowledged") ∧
  (fun a => get a "status") <$> alerts state' !! 0 ≠ Some (JString "resolved").
Proof.
  intros state state'. vm_compute. repeat split; discriminate.
Qed.

(** C2, amended: the patch of an [alert_acknowledged] event is merged into
    the first record with the event's id whatever its status; when that
    record is resolved its status becomes ['acknowledged'] and it takes
    the event's [acknowledged_at] and [acknowledged_by], while its
    [resolved_at] timestamp is kept. *)
Theorem acknowledge_after_resolve (now : string) (clock : nat → string)
    (state : AlertsState) (index : nat) (alert : JsObject)
    (alert_id acknowledged_at acknowledged_by : JsValue) :
  findIndex (id_is alert_id) (alerts state) = Some index →
  alerts state !! index = Some alert →
  get alert "status" = JString "resolved" →
  let state' := store_on now clock state
                  (alert_acknowledged alert_id acknowledged_at acknowledged_by) in
  ∃ alert',
    alerts state' !! index = Some alert' ∧
    get alert' "status" = JString "acknowledged" ∧
    get alert' "status" ≠ get alert "status" ∧
    get alert' "acknowledged_at" = acknowledged_at ∧
    get alert' "acknowledged_by" = acknowledged_by ∧
    get alert' "resolved_at" = get alert "resolved_at" ∧
    get alert' "id" = get alert "id".
Proof.
  intros Hfind Hlook Hres state'.
  assert (get (acknowledged_patch alert_id acknowledged_at acknowledged_by) "id"
          = alert_id) as Hid by reflexivity.
  exists (spread alert (acknowledged_patch alert_id acknowledged_at acknowledged_by)).
  subst state'. unfold store_on, store_after; simpl. unfold updateAlert; simpl.
  rewrite Hid, Hfind.
  split; [by rewrite list_lookup_alter_eq, Hlook|].
  rewrite !get_spread, Hres.
  split; [done|]. split; [done|]. split; [done|]. split; [done|]. split; [done|].
  apply findIndex_Some in Hfind as (x & Hx & Hp & _).
  assert (x = alert) as -> by congruence.
  unfold id_is in Hp. apply strict_eq_true in Hp.
  unfold acknowledged_patch. rewrite lookup_insert_eq. done.
Qed.

Lemma acknowledge_after_resolve_witness :
  ∃ alert',
    alerts (store_on "" (fun _ => "") (fetchAlerts_fulfilled [resolved_A1] initialState)
              (alert_acknowledged (JString "A1") (JString "2024-01-01T11:00:00Z")
                 (JString "operator"))) !! 0 = Some alert' ∧
    get alert' "status" = JString "acknowledged" ∧
    get alert' "status" ≠ get resolved_A1 "status" ∧
    get alert' "acknowledged_at" = JString "2024-01-01T11:00:00Z" ∧
    get alert' "acknowledged_by" = JString "operator" ∧
    get alert' "resolved_at" = get resolved_A1 "resolved_at" ∧
    get alert' "id" = get resolved_A1 "id".
Proof.
  apply (acknowledge_after_resolve "" (fun _ => "")
           (fetchAlerts_fulfilled [resolved_A1] initialState) 0 resolved_A1);
    reflexivity.
Defined.


(** ** The acknowledge thunk *)

(** C4, as stated, fails: while the REST call of [acknowledge("A1")] is in
    flight the alert is still ['active'], with no [acknowledged_at], and
    still in the active view. *)
Lemma acknowledge_has_no_optimistic_patch :
  let state := fetchAlerts_fulfilled [alert_A1] initialState in
  let in_flight := store_after "" state
                     (until_request (acknowledgeAlert "A1" (Resolved ()))) in
  alerts state = [alert_A1] ∧
  get alert_A1 "id" = JString "A1" ∧
  alerts in_flight = [alert_A1] ∧
  activeAlerts in_flight = [alert_A1] ∧
  get alert_A1 "status" = JString "active" ∧
  get alert_A1 "status" ≠ JString "acknowledged" ∧
  get alert_A1 "acknowledged_at" = JUndefined.
Proof.
  intros state in_flight. vm_compute. repeat split; discriminate.
Qed.

(** C4, amended: [acknowledge(id)] applies no patch before its REST call
    completes: the store is notified once with the unchanged state
    ([pending] has no case in the slice), then the one request is issued.
    The acknowledged status and timestamp are written by [fulfilled] only;
    when the call fails the store, and so every alert's status and
    timestamps, is exactly what it was before the call. *)
Theorem acknowledge_patches_on_success_only (now : string) (state : AlertsState)
    (alertId : string) (response : Response unit) :
  store_after now state (until_request (acknowledgeAlert alertId response)) = state ∧
  requests (acknowledgeAlert alertId response) = [alertsAPI.acknowledgeAlert alertId] ∧
  notified now state (acknowledgeAlert alertId response) =
    [state; store_after now state (acknowledgeAlert alertId response)] ∧
  store_after now state (acknowledgeAlert alertId response) =
    match response with
    | Resolved _ => acknowledgeAlert_fulfilled now alertId state
    | Failed _ => state
    end.
Proof. destruct response; repeat split. Qed.

(** ** acknowledge of an unknown id *)

Lemma filter_none_selected {A : Type} (p : A → bool) (l : list A) :
  findIndex p l = None → List.filter (fun a => negb (p a)) l = l.
Proof.
  induction l as [|x l IH]; simpl; [done|].
  destruct (p x); [discriminate|]. simpl.
  destruct (findIndex p l); [discriminate|]. intros _. by rewrite IH.
Qed.

Lemma acknowledgeAlert_fulfilled_unknown (now alertId : string) (state : AlertsState) :
  findIndex (id_is (JString alertId)) (alerts state) = None →
  findIndex (id_is (JString alertId)) (activeAlerts state) = None →
  acknowledgeAlert_fulfilled now alertId state = state.
Proof.
  intros Ha Hb. unfold acknowledgeAlert_fulfilled, mark_first.
  rewrite Ha, (filter_none_selected _ _ Hb). by destruct state.
Qed.

(** C6, as stated, fails: [acknowledge("X9")] on a store without ["X9"]
    issues the REST call. *)
Lemma acknowledge_unknown_calls_server :
  findIndex (id_is (JString "X9")) (alerts initialState) = None ∧
  requests (acknowledgeAlert "X9" (Resolved ())) =
    [ {| method := "PUT"; url := "/alerts/X9/acknowledge"; body := ∅ |} ] ∧
  requests (acknowledgeAlert "X9" (Failed None)) =
    [ {| method := "PUT"; url := "/alerts/X9/acknowledge"; body := ∅ |} ] ∧
  requests (acknowledgeAlert "X9" (Resolved ())) ≠ [].
Proof.
  split; [reflexivity|]. split; [reflexivity|]. split; [reflexivity|]. discriminate.
Qed.

(** C6, amended: [acknowledge(id)] for an id that is in neither list of
    the store is not rejected locally: the request
    [PUT /alerts/{id}/acknowledge] is issued all the same; whatever the
    server answers, the store is left as it was. *)
Theorem acknowledge_unknown_id (now : string) (state : AlertsState)
    (alertId : string) (response : Response unit) :
  findIndex (id_is (JString alertId)) (alerts state) = None →
  findIndex (id_is (JString alertId)) (activeAlerts state) = None →
  requests (acknowledgeAlert alertId response) =
    [ {| method := "PUT"; url := "/alerts/" +:+ alertId +:+ "/acknowledge"; body := ∅ |} ] ∧
  store_after now state (acknowledgeAlert alertId response) = state.
Proof.
  intros Ha Hb. destruct response; (split; [reflexivity|]).
  - unfold store_after; simpl. by apply acknowledgeAlert_fulfilled_unknown.
  - reflexivity.
Qed.

Lemma acknowledge_unknown_id_witness :
  requests (acknowledgeAlert "X9" (Failed None)) =
    [ {| method := "PUT"; url := "/alerts/X9/acknowledge"; body := ∅ |} ] ∧
  store_after "" initialState (acknowledgeAlert "X9" (Failed None)) = initialState.
Proof.
  apply (acknowledge_unknown_id "" initialState "X9" (Failed None)); reflexivity.
Defined.

(** ** Which ids the store holds *)

Lemma ids_alter (f : JsObject → JsObject) (i : nat) (l : list JsObject) :
  (∀ x, l !! i = Some x → get (f x) "id" = get x "id") →
  ids (alter f i l) = ids l.
Proof.
  intros Hf. unfold ids. apply list_eq. intros j.
  rewrite !list_lookup_fmap, list_lookup_alter.
  case_decide as Hij; [|done]. subst j.
  destruct (l !! i) as [x|] eqn:Hx; simpl; [|done].
  by rewrite Hf.
Qed.

Lemma updateAlert_ids (payload : JsObject) (state : AlertsState) :
  ids (alerts (updateAlert payload state)) = ids (alerts state).
Proof.
  unfold updateAlert; simpl.
  destruct (findIndex _ (alerts state)) as [index|] eqn:Hfind; [|done].
  apply ids_alter. intros x Hx.
  apply findIndex_Some in Hfind as (y & Hy & Hp & _).
  assert (y = x) as -> by congruence.
  by apply spread_keeps_id.
Qed.

Lemma mark_first_ids (alertId status stamp now : string) (l : list JsObject) :
  stamp ≠ "id" → ids (mark_first alertId status stamp now l) = ids l.
Proof.
  intros Hstamp. unfold mark_first.
  destruct (findIndex _ l) as [i|]; [|done].
  apply ids_alter. intros x _.
  rewrite !get_assign. repeat case_decide; congruence.
Qed.

(** Apart from a fetched snapshot and [addAlert], no action changes the
    ids of [state.alerts], nor their order. *)
Lemma reducer_ids (now : string) (state : AlertsState) (action : Action) :
  ids (alerts (reducer now state action)) =
  match action with
  | FetchAlertsFulfilled payload => ids payload
  | AddAlert payload => get payload "id" :: ids (alerts state)
  | _ => ids (alerts state)
  end.
Proof.
  destruct action; simpl; try done.
  - by rewrite addAlert_alerts.
  - apply updateAlert_ids.
  - by apply mark_first_ids.
  - by apply mark_first_ids.
Qed.

(** C7, as stated, fails: once the alert of the store is resolved, the
    refetch of the alerts page (its filter asks for active alerts) brings
    a snapshot without it, and the alert is gone from the store. *)
Lemma refetch_drops_alert :
  let state := resolveAlert_fulfilled "2024-01-01T10:00:00Z" "A1"
                 (fetchAlerts_fulfilled [alert_A1] initialState) in
  let state' := store_after "" state (fetchAlerts (filters state) (Resolved [])) in
  get (filters state) "status" = JString "active" ∧
  stored (JString "A1") state ∧
  alerts state' = [] ∧
  ¬ stored (JString "A1") state'.
Proof.
  intros state state'. split; [reflexivity|]. split; [|split; [reflexivity|]].
  - unfold stored. vm_compute. apply list_elem_of_here.
  - unfold stored. vm_compute. apply not_elem_of_nil.
Qed.

(** C7, amended: an id present in [state.alerts] is still present after
    every action but a fetched snapshot: [addAlert], [updateAlert],
    [acknowledgeAlert.fulfilled], [resolveAlert.fulfilled] and the rest
    delete nothing, so a resolved alert stays in the store under them.
    [fetchAlerts.fulfilled] replaces [state.alerts] with the snapshot, so
    after it exactly the snapshot's ids are present. *)
Theorem stored_until_refetch (now : string) (state : AlertsState) (action : Action)
    (id : JsValue) :
  stored id state →
  match action with
  | FetchAlertsFulfilled payload =>
      alerts (reducer now state action) = payload ∧
      (stored id (reducer now state action) ↔ id ∈ ids payload)
  | _ => stored id (reducer now state action)
  end.
Proof.
  unfold stored. intros Hid.
  destruct action; try (rewrite reducer_ids; assumption).
  - rewrite reducer_ids. by apply list_elem_of_further.
  - simpl. done.
Qed.

Lemma stored_until_refetch_witness :
  stored (JString "A1")
    (reducer "2024-01-01T10:00:00Z" (fetchAlerts_fulfilled [alert_A1] initialState)
       (ResolveAlertFulfilled "A1")).
Proof.
  apply (stored_until_refetch "2024-01-01T10:00:00Z"
           (fetchAlerts_fulfilled [alert_A1] initialState)
           (ResolveAlertFulfilled "A1") (JString "A1")).
  unfold stored. vm_compute. apply list_elem_of_here.
Defined.

(** ** alerts_bulk_acknowledged *)

Lemma bulk_dispatches_cons (clock : nat → string) (k : nat) (acknowledged_by : JsValue)
    (alertId : string) (rest : list string) :
  bulk_dispatches clock k acknowledged_by (alertId :: rest) =
  Dispatch (UpdateAlert
    (acknowledged_patch (JString alertId) (JString (clock k)) acknowledged_by))
  :: bulk_dispatches clock (S k) acknowledged_by rest.
Proof.
  unfold bulk_dispatches. rewrite imap_cons, Nat.add_0_r. f_equal.
  apply imap_ext. intros j x _. simpl. by rewrite Nat.add_succ_r.
Qed.

Lemma bulk_handler_dispatches (clock : nat → string) (alert_ids : list string)
    (acknowledged_by : JsValue) :
  useWebSocket_on clock (alerts_bulk_acknowledged alert_ids acknowledged_by) =
  bulk_dispatches clock 0 acknowledged_by alert_ids.
Proof. reflexivity. Qed.

Lemma bulk_store_after (now : string) (clock : nat → string) (acknowledged_by : JsValue)
    (alert_ids : list string) :
  ∀ (k : nat) (state : AlertsState),
    store_after now state (bulk_dispatches clock k acknowledged_by alert_ids) =
    individually now clock k alert_ids acknowledged_by state.
Proof.
  induction alert_ids as [|alertId rest IH]; intros k state; [done|].
  rewrite bulk_dispatches_cons. simpl. rewrite <- IH. done.
Qed.

Lemma bulk_notified (now : string) (clock : nat → string) (acknowledged_by : JsValue)
    (alert_ids : list string) :
  ∀ (k : nat) (state : AlertsState),
    notified now state (bulk_dispatches clock k acknowledged_by alert_ids) =
    (fun n => individually now clock k (take (S n) alert_ids) acknowledged_by state)
      <$> seq 0 (length alert_ids).
Proof.
  induction alert_ids as [|alertId rest IH]; intros k state; [done|].
  rewrite bulk_dispatches_cons. simpl. f_equal.
  rewrite IH, <- fmap_S_seq, <- list_fmap_compose. done.
Qed.

(** C5, as stated, fails: while [alerts_bulk_acknowledged] for two active
    alerts is handled, the subscribers of the store are notified with a
    state whose active view holds one of the two: neither none nor all of
    the transitions. *)
Lemma bulk_acknowledge_partial_state :
  let state := fetchAlerts_fulfilled [alert_A1; alert_A2] initialState in
  let handled := useWebSocket_on (fun _ => "2024-01-01T12:00:00Z")
                   (alerts_bulk_acknowledged ["A1"; "A2"] (JString "operator")) in
  ids (activeAlerts state) = [JString "A1"; JString "A2"] ∧
  ids (activeAlerts (store_after "" state handled)) = [] ∧
  ids ∘ activeAlerts <$> notified "" state handled = [[JString "A2"]; []] ∧
  activeAlerts <$> notified "" state handled !! 0 ≠ Some (activeAlerts state) ∧
  activeAlerts <$> notified "" state handled !! 0 ≠
    Some (activeAlerts (store_after "" state handled)).
Proof.
  intros state handled.
  split; [reflexivity|]. split; [reflexivity|]. split; [reflexivity|].
  split; intros H; apply (f_equal (fmap length)) in H; vm_compute in H; discriminate.
Qed.

(** C5, amended: handling [alerts_bulk_acknowledged] for ids [a1..aN]
    leaves the store that the N individual [alert_acknowledged] events
    leave, applied in order and stamped with the handler's clock.  It is
    not one transaction: the handler dispatches N [updateAlert] actions,
    the store notifies its subscribers after each, and the [n]-th state
    they see is the one the first [n] individual events leave. *)
Theorem bulk_acknowledge_stepwise (now : string) (clock : nat → string)
    (state : AlertsState) (alert_ids : list string) (acknowledged_by : JsValue) :
  store_on now clock state (alerts_bulk_acknowledged alert_ids acknowledged_by) =
    individually now clock 0 alert_ids acknowledged_by state ∧
  notified now state
      (useWebSocket_on clock (alerts_bulk_acknowledged alert_ids acknowledged_by)) =
    (fun n => individually now clock 0 (take (S n) alert_ids) acknowledged_by state)
      <$> seq 0 (length alert_ids).
Proof.
  unfold store_on. rewrite bulk_handler_dispatches. split.
  - apply bulk_store_after.
  - apply bulk_notified.
Qed.

(** ** The channel: subscription on every connect *)

Lemma bulk_dispatches_emit_nothing (clock : nat → string) (acknowledged_by : JsValue)
    (alert_ids : list string) :
  ∀ k : nat, emitted (bulk_dispatches clock k acknowledged_by alert_ids) = [].
Proof.
  induction alert_ids as [|alertId rest IH]; intros k; [done|].
  rewrite bulk_dispatches_cons. simpl. apply IH.
Qed.

(** Only the [connect] handler writes to the channel. *)
Lemma handler_emits (clock : nat → string) (ev : SocketEvent) :
  emitted (useWebSocket_on clock ev) =
  match ev with connect => connect_commands | _ => [] end.
Proof.
  destruct ev; try reflexivity.
  rewrite bulk_handler_dispatches. apply bulk_dispatches_emit_nothing.
Qed.

Lemma channel_step_one_filter (clock : nat → string) (ch : Channel) (ev : SocketEvent) :
  one_filter (outbox ch) → one_filter (outbox (channel_step clock ch ev)).
Proof.
  unfold one_filter. intros H. simpl. rewrite handler_emits.
  apply Forall_app. split; [done|].
  destruct ev; try apply Forall_nil_2.
  repeat constructor; simpl; discriminate.
Qed.

Lemma channel_run_one_filter (clock : nat → string) (evs : list SocketEvent) :
  ∀ ch : Channel, one_filter (outbox ch) → one_filter (outbox (channel_run clock ch evs)).
Proof.
  induction evs as [|ev evs IH]; intros ch H; [done|].
  simpl. apply IH. by apply channel_step_one_filter.
Qed.

Lemma channel_run_extends (clock : nat → string) (evs : list SocketEvent) :
  ∀ ch : Channel, outbox ch `prefix_of` outbox (channel_run clock ch evs).
Proof.
  induction evs as [|ev evs IH]; intros ch; [done|].
  simpl. etrans; [|apply IH]. simpl. by apply prefix_app_r.
Qed.

Lemma last_subscription_one_filter (sent : list (string * JsObject)) (f : JsObject) :
  one_filter sent → last_subscription sent = Some f → f = subscription.
Proof.
  unfold one_filter, last_subscription. intros Hall Hlast.
  destruct (last _) as [c|] eqn:Hc; simpl in Hlast; [|discriminate].
  injection Hlast as <-.
  apply last_Some_elem_of, list_elem_of_In, filter_In in Hc as [Hin Hev].
  apply bool_decide_eq_true in Hev.
  rewrite Forall_forall in Hall. apply Hall; [|done].
  by apply list_elem_of_In.
Qed.

Lemma last_subscription_connect (sent : list (string * JsObject)) :
  last_subscription (sent ++ connect_commands) = Some subscription.
Proof.
  unfold last_subscription. rewrite List.filter_app. simpl.
  by rewrite last_snoc.
Qed.

(** C8: in every run of the channel from its closed state, each [connect]
    transition sends [subscribe_alerts] (after the two [join_room]
    commands), and these commands stay in what the rest of the run sends.
    The filter sent is the last one set: whenever a subscription was sent
    earlier in the run, the new command repeats its filter, which is the
    hook's own severity levels and modules. *)
Theorem connect_resubscribes (clock : nat → string) (pre post : list SocketEvent) :
  let before := channel_run clock closed_channel pre in
  let after := channel_step clock before connect in
  connected after = true ∧
  outbox after =
    outbox before ++ [ ("join_room", {[ "room" := JString "alerts" ]});
                       ("join_room", {[ "room" := JString "dashboard" ]});
                       ("subscribe_alerts", subscription) ] ∧
  (∀ filter, last_subscription (outbox before) = Some filter →
             last_subscription (outbox after) = Some filter) ∧
  last_subscription (outbox after) = Some subscription ∧
  outbox after `prefix_of`
    outbox (channel_run clock closed_channel (pre ++ connect :: post)).
Proof.
  intros before after.
  assert (outbox after = outbox before ++ connect_commands) as Hout by reflexivity.
  split; [reflexivity|]. split; [exact Hout|].
  assert (last_subscription (outbox after) = Some subscription) as Hlast.
  { rewrite Hout. apply last_subscription_connect. }
  split; [|split; [exact Hlast|]].
  - intros filter Hf. rewrite Hlast. f_equal. symmetry.
    eapply last_subscription_one_filter; [|exact Hf].
    apply channel_run_one_filter. apply Forall_nil_2.
  - unfold channel_run. rewrite foldl_app. simpl.
    apply channel_run_extends.
Qed.

(** ** The cached active view *)

(** C1: the active view drifts from the stored alerts on three runs.
    (1) The snapshot and a [new_alert] push both bring the active alert
    A1, then the user's acknowledge succeeds: [acknowledgeAlert.fulfilled]
    marks the first A1 record only but filters every A1 out of
    [activeAlerts], so an active record is missing from the view.
    (2) [updateAlert] with status ['active'] for an acknowledged alert
    makes the stored record active and does not add it to the view.
    (3) [updateAlert] with a payload that has no status, for an active
    alert, keeps the stored record active and removes it from the
    view. *)
Theorem active_view_drifts :
  let run1 := after_actions "2024-01-01T12:00:00Z"
                [ FetchAlertsFulfilled [alert_A1];
                  AddAlert alert_A1;
                  AcknowledgeAlertFulfilled "A1" ] in
  let run2 := after_actions ""
                [ FetchAlertsFulfilled [acknowledged_A1];
                  UpdateAlert {[ "id" := JString "A1"; "status" := JString "active" ]} ] in
  let run3 := after_actions ""
                [ AddAlert alert_A1;
                  UpdateAlert {[ "id" := JString "A1"; "message" := JString "updated" ]} ] in
  (activeAlerts run1 = [] ∧ List.filter is_active (alerts run1) = [alert_A1]) ∧
  (activeAlerts run2 = [] ∧ length (List.filter is_active (alerts run2)) = 1) ∧
  (activeAlerts run3 = [] ∧ length (List.filter is_active (alerts run3)) = 1) ∧
  ¬ in_sync run1 ∧ ¬ in_sync run2 ∧ ¬ in_sync run3.
Proof.
  intros run1 run2 run3.
  assert (activeAlerts run1 = [] ∧ List.filter is_active (alerts run1) = [alert_A1])
    as H1 by (split; reflexivity).
  assert (activeAlerts run2 = [] ∧ length (List.filter is_active (alerts run2)) = 1)
    as H2 by (split; reflexivity).
  assert (activeAlerts run3 = [] ∧ length (List.filter is_active (alerts run3)) = 1)
    as H3 by (split; reflexivity).
  split; [exact H1|]. split; [exact H2|]. split; [exact H3|].
  unfold in_sync.
  destruct H1 as [-> ->], H2 as [-> H2], H3 as [-> H3].
  repeat split; intros H.
  - discriminate.
  - rewrite <- H in H2. discriminate.
  - rewrite <- H in H3. discriminate.
Qed.

(** *** When the view stays in sync *)

(** The drift needs a duplicated id, or an [updateAlert] whose payload
    does not carry a status other than ['active'].  Without them the
    reducers keep the view equal to the active part of [state.alerts]. *)

Section FirstMatch.
Context {A : Type} (q act : A → bool) (f : A → A).

Lemma alter_first_cons (x : A) (t : list A) :
  alter_first q f (x :: t) = if q x then f x :: t else x :: alter_first q f t.
Proof.
  unfold alter_first. simpl. destruct (q x); [done|].
  by destruct (findIndex q t).
Qed.

Lemma delete_first_cons (x : A) (t : list A) :
  delete_first q (x :: t) = if q x then t else x :: delete_first q t.
Proof.
  unfold delete_first. simpl. destruct (q x); [done|].
  by destruct (findIndex q t).
Qed.

Lemma filter_none (l : list A) :
  (∀ b, b ∈ l → q b = false) → List.filter (fun a => negb (q a)) l = l.
Proof.
  intros H. apply filter_none_selected. by apply findIndex_None.
Qed.

Lemma elem_of_filter_act (b : A) (l : list A) :
  b ∈ List.filter act l → b ∈ l.
Proof. rewrite !list_elem_of_In, filter_In. tauto. Qed.

Lemma at_most_one_filter (l : list A) :
  at_most_one q l → at_most_one q (List.filter act l).
Proof.
  induction l as [|x t IH]; simpl; [done|]. intros [Hx Ht].
  destruct (act x); simpl; [|auto].
  split; [|auto]. intros Hq b Hb. apply Hx; [done|].
  by apply elem_of_filter_act.
Qed.

Lemma delete_first_filter (l : list A) :
  at_most_one q l → delete_first q l = List.filter (fun a => negb (q a)) l.
Proof.
  induction l as [|x t IH]; [done|]. intros [Hx Ht].
  rewrite delete_first_cons. simpl. destruct (q x) eqn:Hq; simpl.
  - symmetry. apply filter_none. by apply Hx.
  - by rewrite IH.
Qed.

Lemma filter_alter_first (l : list A) :
  at_most_one q l → (∀ x, q x = true → act (f x) = false) →
  List.filter act (alter_first q f l) =
  List.filter (fun a => negb (q a)) (List.filter act l).
Proof.
  intros Hone Hf. induction l as [|x t IH]; [done|].
  destruct Hone as [Hx Ht]. rewrite alter_first_cons.
  destruct (q x) eqn:Hq; simpl.
  - rewrite (Hf x Hq).
    assert (List.filter (fun a => negb (q a)) (List.filter act t) = List.filter act t)
      as Hnone.
    { apply filter_none. intros b Hb. apply Hx; [done|].
      by apply elem_of_filter_act. }
    destruct (act x); simpl; by rewrite ?Hq, Hnone.
  - destruct (act x); simpl; rewrite ?Hq, IH; done.
Qed.
End FirstMatch.

Lemma distinct_ids_at_most_one (v : JsValue) (l : list JsObject) :
  distinct_ids l → at_most_one (id_is v) l.
Proof.
  unfold distinct_ids. induction l as [|x t IH]; simpl; [done|].
  intros [Hx Ht]. split; [|auto].
  intros Hq b Hb. unfold id_is in *. apply strict_eq_true in Hq. subst v.
  rewrite Forall_forall in Hx. apply Hx.
  unfold ids. apply list_elem_of_fmap. eauto.
Qed.

Lemma updateAlert_in_sync (payload : JsObject) (state : AlertsState) :
  in_sync state → distinct_ids (alerts state) →
  admissible state (UpdateAlert payload) →
  in_sync (updateAlert payload state).
Proof.
  unfold in_sync. intros Hsync Hdist (status & Hst & Hna).
  assert (strict_eq (get payload "status") (JString "active") = false) as Hp.
  { unfold get. by rewrite Hst. }
  pose proof (distinct_ids_at_most_one (get payload "id") _ Hdist) as Hone.
  unfold updateAlert; simpl. rewrite Hp.
  change (delete_first (id_is (get payload "id")) (activeAlerts state) =
          List.filter is_active
            (alter_first (id_is (get payload "id"))
               (fun old => spread old payload) (alerts state))).
  rewrite filter_alter_first; [| done |].
  - rewrite Hsync. apply delete_first_filter. by apply at_most_one_filter.
  - intros x _. unfold is_active. rewrite get_spread, Hst. done.
Qed.

Lemma mark_first_in_sync (now alertId status stamp : string) (state : AlertsState) :
  status ≠ "active" → stamp ≠ "status" →
  in_sync state → distinct_ids (alerts state) →
  List.filter (fun a => negb (id_is (JString alertId) a)) (activeAlerts state) =
  List.filter is_active (mark_first alertId status stamp now (alerts state)).
Proof.
  unfold in_sync. intros Hstatus Hstamp Hsync Hdist.
  pose proof (distinct_ids_at_most_one (JString alertId) _ Hdist) as Hone.
  change (mark_first alertId status stamp now (alerts state)) with
    (alter_first (id_is (JString alertId))
       (fun a => assign stamp (JString now) (assign "status" (JString status) a))
       (alerts state)).
  rewrite filter_alter_first; [by rewrite Hsync | done |].
  intros x _. unfold is_active. rewrite !get_assign.
  rewrite decide_False by done. rewrite decide_True by done.
  simpl. by apply bool_decide_eq_false.
Qed.

(** An admissible action keeps the view in sync and the ids distinct. *)
Lemma reducer_in_sync (now : string) (state : AlertsState) (action : Action) :
  in_sync state → distinct_ids (alerts state) → admissible state action →
  in_sync (reducer now state action) ∧ distinct_ids (alerts (reducer now state action)).
Proof.
  intros Hsync Hdist Hadm.
  split; [|unfold distinct_ids in *; rewrite reducer_ids].
  - destruct action; simpl; try exact Hsync.
    + unfold in_sync in *. rewrite addAlert_alerts, addAlert_activeAlerts. simpl.
      destruct (is_active payload); by rewrite Hsync.
    + by apply updateAlert_in_sync.
    + reflexivity.
    + unfold in_sync; simpl. by apply mark_first_in_sync.
    + unfold in_sync; simpl. by apply mark_first_in_sync.
  - destruct action; try exact Hdist; simpl in *; [|exact Hadm].
    split; [|exact Hdist].
    rewrite Forall_forall. intros u Hu.
    unfold ids in Hu. apply list_elem_of_fmap in Hu as (b & -> & Hb).
    by apply (proj1 (findIndex_None _ _) Hadm).
Qed.

(** X23: from the initial state, and as long as ids stay distinct and
    every [updateAlert] payload carries a status other than ['active']
    (as the payloads of the push events do), [state.activeAlerts] is the
    active part of [state.alerts] after every action. *)
Lemma admissible_run_in_sync (now : string) (actions : list Action) :
  admissible_run now initialState actions → in_sync (after_actions now actions).
Proof.
  unfold after_actions.
  assert (∀ state, in_sync state → distinct_ids (alerts state) →
                   admissible_run now state actions →
                   in_sync (foldl (reducer now) state actions)) as Hgen.
  { induction actions as [|action rest IH]; intros state Hsync Hdist Hrun; [done|].
    destruct Hrun as [Hadm Hrest]. simpl.
    destruct (reducer_in_sync now state action Hsync Hdist Hadm) as [Hs Hd].
    by apply IH. }
  apply Hgen; done.
Qed.

(** A session of that kind: the snapshot brings A1 and A2, A1 is
    acknowledged over the channel, the user's acknowledge of A2
    succeeds. *)
Example admissible_session_in_sync :
  in_sync (after_actions "2024-01-01T12:00:00Z"
    [ FetchAlertsFulfilled [alert_A1; alert_A2];
      UpdateAlert (acknowledged_patch (JString "A1") (JString "2024-01-01T11:00:00Z")
                     (JString "operator"));
      AcknowledgeAlertFulfilled "A2" ]).
Proof.
  apply admissible_run_in_sync. simpl. split; [|split; [|done]].
  - unfold distinct_ids; simpl. repeat constructor.
  - eexists. split; reflexivity.
Defined.

(** * Further properties *)

(** ** The active view is sound on every run *)

Lemma elem_of_List_filter {A : Type} (f : A → bool) (l : list A) (x : A) :
  x ∈ List.filter f l ↔ x ∈ l ∧ f x = true.
Proof. by rewrite !list_elem_of_In, filter_In. Qed.

Lemma Forall_List_filter {A : Type} (P : A → Prop) (f : A → bool) (l : list A) :
  Forall P l → Forall P (List.filter f l).
Proof.
  rewrite !Forall_forall. intros H x Hx.
  apply elem_of_List_filter in Hx as [Hx _]. by apply H.
Qed.

Lemma ids_List_filter (f : JsObject → bool) (l : list JsObject) (v : JsValue) :
  v ∈ ids (List.filter f l) → v ∈ ids l.
Proof.
  unfold ids. rewrite !list_elem_of_fmap. intros (a & -> & Ha).
  apply elem_of_List_filter in Ha as [Ha _]. eauto.
Qed.

Lemma ids_delete (k : nat) (l : list JsObject) (v : JsValue) :
  v ∈ ids (delete k l) → v ∈ ids l.
Proof.
  unfold ids. rewrite !list_elem_of_fmap. intros (a & -> & Ha).
  apply list_elem_of_delete_inv in Ha. eauto.
Qed.

Lemma is_active_spread (old payload : JsObject) :
  strict_eq (get payload "status") (JString "active") = true →
  is_active (spread old payload) = true.
Proof.
  intros H. unfold is_active. rewrite get_spread.
  apply strict_eq_true in H. unfold get in H.
  destruct (payload !! "status") as [v|]; simpl in H; [by subst|discriminate].
Qed.

Lemma updateAlert_view_sound (payload : JsObject) (state : AlertsState) :
  view_sound state → view_sound (updateAlert payload state).
Proof.
  intros (Hact & Hids & Hlen). unfold view_sound.
  rewrite updateAlert_ids.
  assert (length (alerts (updateAlert payload state)) = length (alerts state)) as ->.
  { unfold updateAlert; simpl. destruct (findIndex _ (alerts state)); [|done].
    apply length_alter. }
  unfold updateAlert; simpl.
  destruct (findIndex _ (activeAlerts state)) as [k|] eqn:Hfind; [|done].
  destruct (strict_eq (get payload "status") (JString "active")) eqn:Hst.
  - split; [|split].
    + apply Forall_alter; [done|]. intros x _ _. by apply is_active_spread.
    + rewrite ids_alter; [done|]. intros x Hx.
      apply findIndex_Some in Hfind as (y & Hy & Hp & _).
      assert (y = x) as -> by congruence. by apply spread_keeps_id.
    + by rewrite length_alter.
  - unfold splice1. split; [|split].
    + by apply Forall_delete.
    + intros v Hv. apply Hids. by eapply ids_delete.
    + pose proof (sublist_length _ _ (sublist_delete (activeAlerts state) k)). lia.
Qed.

Lemma fulfilled_view_sound (alertId status stamp now : string) (state : AlertsState) :
  stamp ≠ "id" → view_sound state →
  Forall (fun a => is_active a = true)
    (List.filter (fun a => negb (id_is (JString alertId) a)) (activeAlerts state)) ∧
  (∀ v, v ∈ ids (List.filter (fun a => negb (id_is (JString alertId) a))
                   (activeAlerts state)) →
        v ∈ ids (mark_first alertId status stamp now (alerts state))) ∧
  length (List.filter (fun a => negb (id_is (JString alertId) a)) (activeAlerts state))
    ≤ length (mark_first alertId status stamp now (alerts state)).
Proof.
  intros Hstamp (Hact & Hids & Hlen). split; [|split].
  - by apply Forall_List_filter.
  - intros v Hv. rewrite mark_first_ids by done. apply Hids.
    by eapply ids_List_filter.
  - assert (length (mark_first alertId status stamp now (alerts state))
            = length (alerts state)) as ->.
    { unfold mark_first. destruct (findIndex _ _); [apply length_alter|done]. }
    pose proof (filter_length_le (fun a => negb (id_is (JString alertId) a))
                  (activeAlerts state)). lia.
Qed.

Lemma reducer_view_sound (now : string) (state : AlertsState) (action : Action) :
  view_sound state → view_sound (reducer now state action).
Proof.
  intros Hs. destruct action; simpl; try exact Hs.
  - destruct Hs as (Hact & Hids & Hlen). unfold view_sound.
    rewrite addAlert_alerts, addAlert_activeAlerts.
    destruct (is_active payload) eqn:Hp; simpl.
    + split; [by constructor|]. split; [|lia].
      intros v Hv. apply elem_of_cons in Hv as [->|Hv].
      * apply list_elem_of_here.
      * apply list_elem_of_further. by apply Hids.
    + split; [done|]. split; [|lia].
      intros v Hv. apply list_elem_of_further. by apply Hids.
  - by apply updateAlert_view_sound.
  - unfold view_sound; simpl. split; [|split].
    + rewrite Forall_forall. intros a Ha.
      by apply elem_of_List_filter in Ha as [_ Ha].
    + apply ids_List_filter.
    + apply filter_length_le.
  - by apply fulfilled_view_sound.
  - by apply fulfilled_view_sound.
Qed.

(** X1: whatever actions reach the slice, with whatever payloads and clock
    readings, every record of [state.activeAlerts] has status ['active'],
    its id is the id of some record of [state.alerts], and the view is
    never longer than [state.alerts]. *)
Theorem active_view_sound (timed : list (string * Action)) :
  view_sound (after_timed timed).
Proof.
  unfold after_timed.
  assert (view_sound initialState) as Hinit.
  { unfold view_sound; simpl. split; [constructor|]. split; [done|lia]. }
  revert Hinit. generalize initialState as state.
  induction timed as [|[now action] rest IH]; intros state Hs; [done|].
  simpl. apply IH. by apply reducer_view_sound.
Qed.

(** ** Patches: redelivery and composition *)

Lemma state_eq (s1 s2 : AlertsState) :
  alerts s1 = alerts s2 → activeAlerts s1 = activeAlerts s2 →
  isLoading s1 = isLoading s2 → error s1 = error s2 → filters s1 = filters s2 →
  s1 = s2.
Proof. destruct s1, s2; simpl; congruence. Qed.

Lemma updateAlert_alerts (payload : JsObject) (state : AlertsState) :
  alerts (updateAlert payload state) =
  alter_first (id_is (get payload "id")) (fun old => spread old payload) (alerts state).
Proof. reflexivity. Qed.

Lemma updateAlert_activeAlerts (payload : JsObject) (state : AlertsState) :
  activeAlerts (updateAlert payload state) =
  if strict_eq (get payload "status") (JString "active")
  then alter_first (id_is (get payload "id")) (fun old => spread old payload)
         (activeAlerts state)
  else delete_first (id_is (get payload "id")) (activeAlerts state).
Proof.
  unfold updateAlert, alter_first, delete_first; simpl.
  by destruct (findIndex _ (activeAlerts state)), (strict_eq _ _).
Qed.

Lemma spread_twice (old payload : JsObject) :
  spread (spread old payload) payload = spread old payload.
Proof. unfold spread. by rewrite (assoc_L (∪)), (idemp_L (∪)). Qed.

Lemma id_is_spread (old payload : JsObject) :
  id_is (get payload "id") old = true →
  id_is (get payload "id") (spread old payload) = true.
Proof. intros H. unfold id_is. rewrite spread_keeps_id; done. Qed.

Section FirstMatchAgain.
Context {A : Type} (q : A → bool) (f : A → A).
Hypothesis f_keeps_q : ∀ x, q x = true → q (f x) = true.

Lemma findIndex_alter_first (l : list A) :
  findIndex q (alter_first q f l) = findIndex q l.
Proof.
  induction l as [|x t IH]; [done|].
  rewrite alter_first_cons. destruct (q x) eqn:Hq; simpl.
  - by rewrite (f_keeps_q x Hq), Hq.
  - by rewrite Hq, IH.
Qed.

Lemma alter_first_lookup (l : list A) (i : nat) (x : A) :
  findIndex q l = Some i → l !! i = Some x →
  alter_first q f l !! i = Some (f x) ∧
  ∀ j, j ≠ i → alter_first q f l !! j = l !! j.
Proof.
  intros Hfind Hx. unfold alter_first. rewrite Hfind. split.
  - by rewrite list_lookup_alter_eq, Hx.
  - intros j Hj. by rewrite list_lookup_alter_ne.
Qed.

Lemma alter_first_twice (l : list A) :
  (∀ x, q x = true → f (f x) = f x) →
  alter_first q f (alter_first q f l) = alter_first q f l.
Proof.
  intros Hf. induction l as [|x t IH]; [done|].
  rewrite alter_first_cons. destruct (q x) eqn:Hq.
  - by rewrite alter_first_cons, (f_keeps_q x Hq), (Hf x Hq).
  - by rewrite alter_first_cons, Hq, IH.
Qed.
End FirstMatchAgain.

Lemma delete_first_twice {A : Type} (q : A → bool) (l : list A) :
  at_most_one q l → delete_first q (delete_first q l) = delete_first q l.
Proof.
  intros Hone. rewrite (delete_first_filter q l Hone).
  unfold delete_first.
  assert (findIndex q (List.filter (fun a => negb (q a)) l) = None) as ->; [|done].
  apply findIndex_None. intros b Hb.
  apply elem_of_List_filter in Hb as [_ Hb]. by apply negb_true_iff.
Qed.

(** X2: a patch delivered twice leaves the store it left the first time,
    provided at most one record of the active view carries its id: the
    redelivery of [alert_acknowledged] or [alert_resolved] is then
    harmless. *)
Theorem updateAlert_redelivered (payload : JsObject) (state : AlertsState) :
  at_most_one (id_is (get payload "id")) (activeAlerts state) →
  updateAlert payload (updateAlert payload state) = updateAlert payload state.
Proof.
  intros Hone. apply state_eq; try reflexivity.
  - rewrite !updateAlert_alerts. apply alter_first_twice.
    + intros x. apply id_is_spread.
    + intros x _. apply spread_twice.
  - rewrite !updateAlert_activeAlerts.
    destruct (strict_eq (get payload "status") (JString "active")).
    + apply alter_first_twice.
      * intros x. apply id_is_spread.
      * intros x _. apply spread_twice.
    + by apply delete_first_twice.
Qed.

Lemma updateAlert_redelivered_witness :
  let patch := resolved_patch (JString "A1") (JString "2024-01-01T10:00:00Z")
                 (JString "operator") in
  let state := fetchAlerts_fulfilled [alert_A1; alert_A2] initialState in
  updateAlert patch (updateAlert patch state) = updateAlert patch state.
Proof.
  intros patch state. apply (updateAlert_redelivered patch state).
  apply distinct_ids_at_most_one. unfold distinct_ids; simpl. repeat constructor.
Defined.

Lemma store_on_patch (now : string) (clock : nat → string) (state : AlertsState)
    (id stamp by_ : JsValue) :
  store_on now clock state (alert_acknowledged id stamp by_) =
    updateAlert (acknowledged_patch id stamp by_) state ∧
  store_on now clock state (alert_resolved id stamp by_) =
    updateAlert (resolved_patch id stamp by_) state.
Proof. split; reflexivity. Qed.

(** X3: when an alert is acknowledged and then resolved over the channel,
    the first record with the events' id ends resolved and carries both
    histories: [acknowledged_at] and [acknowledged_by] of the first
    event, [resolved_at] and [resolved_by] of the second; its id and
    every other property are what they were. *)
Theorem acknowledged_then_resolved (now : string) (clock : nat → string)
    (state : AlertsState) (index : nat) (alert : JsObject)
    (alert_id acknowledged_at acknowledged_by resolved_at resolved_by : JsValue) :
  findIndex (id_is alert_id) (alerts state) = Some index →
  alerts state !! index = Some alert →
  let state' :=
    store_on now clock
      (store_on now clock state
         (alert_acknowledged alert_id acknowledged_at acknowledged_by))
      (alert_resolved alert_id resolved_at resolved_by) in
  ∃ alert',
    alerts state' !! index = Some alert' ∧
    get alert' "status" = JString "resolved" ∧
    get alert' "acknowledged_at" = acknowledged_at ∧
    get alert' "acknowledged_by" = acknowledged_by ∧
    get alert' "resolved_at" = resolved_at ∧
    get alert' "resolved_by" = resolved_by ∧
    get alert' "id" = get alert "id" ∧
    ∀ k : string,
      k ∉ ["id"; "status"; "acknowledged_at"; "acknowledged_by";
           "resolved_at"; "resolved_by"] →
      get alert' k = get alert k.
Proof.
  intros Hfind Hlook state'. subst state'.
  pose (p1 := acknowledged_patch alert_id acknowledged_at acknowledged_by).
  pose (p2 := resolved_patch alert_id resolved_at resolved_by).
  assert (get p1 "id" = alert_id) as Hid1 by reflexivity.
  assert (get p2 "id" = alert_id) as Hid2 by reflexivity.
  rewrite (proj1 (store_on_patch _ _ _ _ _ _)), (proj2 (store_on_patch _ _ _ _ _ _)).
  fold p1 p2. rewrite !updateAlert_alerts, Hid1, Hid2.
  assert (∀ x, id_is alert_id x = true → id_is alert_id (spread x p1) = true) as Hkeep.
  { intros x Hx. rewrite <- Hid1 in *. by apply id_is_spread. }
  destruct (alter_first_lookup (id_is alert_id) (fun old => spread old p1)
              (alerts state) index alert Hfind Hlook) as [H1 _].
  destruct (alter_first_lookup (id_is alert_id) (fun old => spread old p2)
              (alter_first (id_is alert_id) (fun old => spread old p1) (alerts state))
              index (spread alert p1)) as [H2 _]; [|done|].
  { by rewrite findIndex_alter_first. }
  exists (spread (spread alert p1) p2). split; [done|].
  rewrite !get_spread.
  split; [done|]. split; [done|]. split; [done|]. split; [done|]. split; [done|].
  split.
  - apply findIndex_Some in Hfind as (x & Hx & Hp & _).
    assert (x = alert) as -> by congruence.
    unfold id_is in Hp. apply strict_eq_true in Hp.
    subst p2. unfold resolved_patch. by rewrite lookup_insert_eq.
  - intros k Hk. rewrite !get_spread.
    assert (p2 !! k = None) as ->.
    { subst p2. unfold resolved_patch.
      rewrite !lookup_insert_ne, lookup_singleton_ne; [done|..]; intros <-; apply Hk;
        set_solver. }
    assert (p1 !! k = None) as ->; [|done].
    subst p1. unfold acknowledged_patch.
    rewrite !lookup_insert_ne, lookup_singleton_ne; [done|..]; intros <-; apply Hk;
      set_solver.
Qed.

Lemma acknowledged_then_resolved_witness :
  ∃ alert',
    alerts (store_on "" (fun _ => "")
              (store_on "" (fun _ => "") (fetchAlerts_fulfilled [alert_A1] initialState)
                 (alert_acknowledged (JString "A1") (JString "2024-01-01T09:00:00Z")
                    (JString "operator")))
              (alert_resolved (JString "A1") (JString "2024-01-01T10:00:00Z")
                 (JString "supervisor"))) !! 0 = Some alert' ∧
    get alert' "status" = JString "resolved" ∧
    get alert' "acknowledged_at" = JString "2024-01-01T09:00:00Z" ∧
    get alert' "acknowledged_by" = JString "operator" ∧
    get alert' "resolved_at" = JString "2024-01-01T10:00:00Z" ∧
    get alert' "resolved_by" = JString "supervisor" ∧
    get alert' "id" = get alert_A1 "id" ∧
    ∀ k : string,
      k ∉ ["id"; "status"; "acknowledged_at"; "acknowledged_by";
           "resolved_at"; "resolved_by"] →
      get alert' k = get alert_A1 k.
Proof.
  apply (acknowledged_then_resolved "" (fun _ => "")
           (fetchAlerts_fulfilled [alert_A1] initialState) 0 alert_A1);
    reflexivity.
Defined.

(** ** The fulfilled reducers *)

Lemma mark_first_lookup (alertId status stamp now : string) (l : list JsObject)
    (i : nat) (a : JsObject) :
  findIndex (id_is (JString alertId)) l = Some i → l !! i = Some a →
  (∃ a', mark_first alertId status stamp now l !! i = Some a' ∧
         get a' "status" = (if decide (stamp = "status") then JString now
                            else JString status) ∧
         get a' stamp = JString now ∧
         ∀ k, k ≠ "status" → k ≠ stamp → get a' k = get a k) ∧
  ∀ j, j ≠ i → mark_first alertId status stamp now l !! j = l !! j.
Proof.
  intros Hfind Ha. unfold mark_first. rewrite Hfind. split.
  - eexists. rewrite list_lookup_alter_eq, Ha. split; [done|].
    rewrite !get_assign. split; [done|]. split; [by rewrite decide_True|].
    intros k Hk1 Hk2. rewrite !get_assign.
    rewrite decide_False by done. by rewrite decide_False.
  - intros j Hj. by rewrite list_lookup_alter_ne.
Qed.

Lemma view_without (alertId : string) (l : list JsObject) (b : JsObject) :
  b ∈ List.filter (fun a => negb (id_is (JString alertId) a)) l ↔
  b ∈ l ∧ id_is (JString alertId) b = false.
Proof. by rewrite elem_of_List_filter, negb_true_iff. Qed.

(** X4: when the REST call of [resolveAlert] succeeds, the request was
    [PUT /alerts/{id}/resolve] with the notes, the first stored record
    with that id gets status ['resolved'] and [resolved_at] set to the
    clock reading, all its other properties and all other records stay,
    the active view loses exactly the records with that id, and loading
    flag, error and filters are untouched. *)
Theorem resolveAlert_succeeds (now : string) (state : AlertsState) (alertId : string)
    (notes : JsValue) (index : nat) (alert : JsObject) :
  findIndex (id_is (JString alertId)) (alerts state) = Some index →
  alerts state !! index = Some alert →
  let state' := store_after now state (resolveAlert alertId notes (Resolved ())) in
  requests (resolveAlert alertId notes (Resolved ())) =
    [ {| method := "PUT"; url := "/alerts/" +:+ alertId +:+ "/resolve";
         body := {[ "resolution_notes" := notes ]} |} ] ∧
  (∃ alert', alerts state' !! index = Some alert' ∧
             get alert' "status" = JString "resolved" ∧
             get alert' "resolved_at" = JString now ∧
             ∀ k, k ≠ "status" → k ≠ "resolved_at" → get alert' k = get alert k) ∧
  (∀ j, j ≠ index → alerts state' !! j = alerts state !! j) ∧
  (∀ b, b ∈ activeAlerts state' ↔
        b ∈ activeAlerts state ∧ id_is (JString alertId) b = false) ∧
  isLoading state' = isLoading state ∧ error state' = error state ∧
  filters state' = filters state.
Proof.
  intros Hfind Ha state'. split; [reflexivity|].
  destruct (mark_first_lookup alertId "resolved" "resolved_at" now _ _ _ Hfind Ha)
    as [Hrec Hframe].
  split; [exact Hrec|]. split; [exact Hframe|].
  split; [apply view_without|]. done.
Qed.

Lemma resolveAlert_succeeds_witness :
  ∃ alert',
    alerts (store_after "2024-01-01T10:00:00Z"
              (fetchAlerts_fulfilled [alert_A1; alert_A2] initialState)
              (resolveAlert "A2" JUndefined (Resolved ()))) !! 1 = Some alert' ∧
    get alert' "status" = JString "resolved" ∧
    get alert' "resolved_at" = JString "2024-01-01T10:00:00Z" ∧
    ∀ k, k ≠ "status" → k ≠ "resolved_at" → get alert' k = get alert_A2 k.
Proof.
  apply (resolveAlert_succeeds "2024-01-01T10:00:00Z"
           (fetchAlerts_fulfilled [alert_A1; alert_A2] initialState)
           "A2" JUndefined 1 alert_A2); reflexivity.
Defined.

(** X5: [acknowledgeAlert.fulfilled] sets status ['acknowledged'] and
    [acknowledged_at] (the clock reading) on the first stored record with
    the id and on nothing else, and removes from the active view exactly
    the records with that id. *)
Theorem acknowledgeAlert_fulfilled_marks (now : string) (state : AlertsState)
    (alertId : string) (index : nat) (alert : JsObject) :
  findIndex (id_is (JString alertId)) (alerts state) = Some index →
  alerts state !! index = Some alert →
  let state' := reducer now state (AcknowledgeAlertFulfilled alertId) in
  (∃ alert', alerts state' !! index = Some alert' ∧
             get alert' "status" = JString "acknowledged" ∧
             get alert' "acknowledged_at" = JString now ∧
             ∀ k, k ≠ "status" → k ≠ "acknowledged_at" → get alert' k = get alert k) ∧
  (∀ j, j ≠ index → alerts state' !! j = alerts state !! j) ∧
  (∀ b, b ∈ activeAlerts state' ↔
        b ∈ activeAlerts state ∧ id_is (JString alertId) b = false).
Proof.
  intros Hfind Ha state'.
  destruct (mark_first_lookup alertId "acknowledged" "acknowledged_at" now _ _ _ Hfind Ha)
    as [Hrec Hframe].
  split; [exact Hrec|]. split; [exact Hframe|]. apply view_without.
Qed.

Lemma acknowledgeAlert_fulfilled_marks_witness :
  ∃ alert',
    alerts (reducer "2024-01-01T09:00:00Z"
              (fetchAlerts_fulfilled [alert_A1; alert_A2] initialState)
              (AcknowledgeAlertFulfilled "A1")) !! 0 = Some alert' ∧
    get alert' "status" = JString "acknowledged" ∧
    get alert' "acknowledged_at" = JString "2024-01-01T09:00:00Z" ∧
    ∀ k, k ≠ "status" → k ≠ "acknowledged_at" → get alert' k = get alert_A1 k.
Proof.
  apply (acknowledgeAlert_fulfilled_marks "2024-01-01T09:00:00Z"
           (fetchAlerts_fulfilled [alert_A1; alert_A2] initialState)
           "A1" 0 alert_A1); reflexivity.
Defined.

(** ** The fetch thunk *)

Lemma or_else_nonempty (x : option string) (d : string) :
  d ≠ "" → or_else x d ≠ "".
Proof.
  intros Hd. unfold or_else. destruct x as [s|]; [|done].
  case_bool_decide; done.
Qed.

(** X6: a run of [fetchAlerts] notifies the store twice, first with the
    loading flag up and the error cleared, and ends with the flag down
    and the filters untouched.  On success the store holds the snapshot,
    the view is its active part whatever the state was before, and no
    error is left.  On failure the stored alerts and the view are kept
    and the error is the server's message, or ['Failed to fetch alerts']
    when there is none or an empty one; it is never empty. *)
Theorem fetchAlerts_outcome (now : string) (state : AlertsState) (params : JsObject)
    (response : Response (list JsObject)) :
  let state' := store_after now state (fetchAlerts params response) in
  requests (fetchAlerts params response) =
    [ {| method := "GET"; url := "/alerts"; body := params |} ] ∧
  notified now state (fetchAlerts params response) = [fetchAlerts_pending state; state'] ∧
  isLoading (fetchAlerts_pending state) = true ∧
  isLoading state' = false ∧
  filters state' = filters state ∧
  match response with
  | Resolved data =>
      alerts state' = data ∧ in_sync state' ∧ error state' = None
  | Failed message =>
      alerts state' = alerts state ∧
      activeAlerts state' = activeAlerts state ∧
      error state' = Some (match message with
                           | Some m => if decide (m = "") then "Failed to fetch alerts" else m
                           | None => "Failed to fetch alerts"
                           end) ∧
      error state' ≠ Some ""
  end.
Proof.
  intros state'. destruct response as [data|message]; subst state'.
  - repeat split.
  - split; [reflexivity|]. split; [reflexivity|]. split; [reflexivity|].
    split; [reflexivity|]. split; [reflexivity|]. split; [reflexivity|].
    split; [reflexivity|]. unfold store_after; simpl. split.
    + f_equal. unfold or_else. destruct message as [m|]; [|done].
      by case_bool_decide; case_decide.
    + intros [= H]. by eapply or_else_nonempty in H.
Qed.

(** ** Patches for unknown alerts *)

Lemma updateAlert_unknown (payload : JsObject) (state : AlertsState) :
  findIndex (id_is (get payload "id")) (alerts state) = None →
  findIndex (id_is (get payload "id")) (activeAlerts state) = None →
  updateAlert payload state = state.
Proof.
  intros Ha Hb. unfold updateAlert. rewrite Ha, Hb. by destruct state.
Qed.

Lemma bulk_unknown (now : string) (clock : nat → string) (acknowledged_by : JsValue)
    (state : AlertsState) (alert_ids : list string) :
  Forall (fun alertId =>
            findIndex (id_is (JString alertId)) (alerts state) = None ∧
            findIndex (id_is (JString alertId)) (activeAlerts state) = None)
         alert_ids →
  ∀ k, store_after now state (bulk_dispatches clock k acknowledged_by alert_ids) = state.
Proof.
  induction 1 as [|alertId rest [Ha Hb] _ IH]; intros k; [done|].
  rewrite bulk_dispatches_cons. unfold store_after in *. simpl.
  rewrite updateAlert_unknown; [apply IH|done|done].
Qed.

(** X7: a pushed patch for an alert the store does not hold is dropped:
    [alert_acknowledged] and [alert_resolved] for an id that is in
    neither list, and [alerts_bulk_acknowledged] for ids of which none
    is, leave the store exactly as it was; no partial record is
    created. *)
Theorem unknown_alert_patch_dropped (now : string) (clock : nat → string)
    (state : AlertsState) (alert_ids : list string) (stamp by_ : JsValue) :
  Forall (fun alertId =>
            findIndex (id_is (JString alertId)) (alerts state) = None ∧
            findIndex (id_is (JString alertId)) (activeAlerts state) = None)
         alert_ids →
  store_on now clock state (alerts_bulk_acknowledged alert_ids by_) = state ∧
  ∀ alertId, alertId ∈ alert_ids →
    store_on now clock state (alert_acknowledged (JString alertId) stamp by_) = state ∧
    store_on now clock state (alert_resolved (JString alertId) stamp by_) = state.
Proof.
  intros Hall. split.
  - unfold store_on. rewrite bulk_handler_dispatches. by apply bulk_unknown.
  - intros alertId Hin. rewrite Forall_forall in Hall.
    destruct (Hall alertId Hin) as [Ha Hb].
    rewrite (proj1 (store_on_patch _ _ _ _ _ _)), (proj2 (store_on_patch _ _ _ _ _ _)).
    split; by apply updateAlert_unknown.
Qed.

Lemma unknown_alert_patch_dropped_witness :
  let state := fetchAlerts_fulfilled [alert_A1] initialState in
  store_on "" (fun _ => "") state
    (alerts_bulk_acknowledged ["X8"; "X9"] (JString "operator")) = state.
Proof.
  intros state.
  refine (proj1 (unknown_alert_patch_dropped "" (fun _ => "") state ["X8"; "X9"]
                   JUndefined (JString "operator") _)).
  repeat first [apply Forall_nil_2 | apply Forall_cons_2 | split | reflexivity].
Defined.

(** ** What the handlers do not do *)

Lemma bulk_dispatches_request_nothing (clock : nat → string) (acknowledged_by : JsValue)
    (alert_ids : list string) :
  ∀ k : nat, requests (bulk_dispatches clock k acknowledged_by alert_ids) = [].
Proof.
  induction alert_ids as [|alertId rest IH]; intros k; [done|].
  rewrite bulk_dispatches_cons. simpl. apply IH.
Qed.

(** X8: no socket handler issues a REST call, only the [connect] handler
    writes to the channel, and the handlers of [connect], [disconnect],
    [connect_error], the data feeds, [emergency_alert] and
    [system_update] leave the alerts slice as it is. *)
Theorem handlers_stay_local (now : string) (clock : nat → string) (ev : SocketEvent)
    (state : AlertsState) :
  requests (useWebSocket_on clock ev) = [] ∧
  (if is_connect ev then emitted (useWebSocket_on clock ev) = connect_commands
   else emitted (useWebSocket_on clock ev) = []) ∧
  (if is_quiet ev then store_on now clock state ev = state else True).
Proof.
  split; [|split].
  - destruct ev; try reflexivity.
    rewrite bulk_handler_dispatches. apply bulk_dispatches_request_nothing.
  - rewrite handler_emits. by destruct ev.
  - by destruct ev.
Qed.

(** ** The channel over a whole run *)

Lemma channel_run_snoc (clock : nat → string) (ch : Channel) (evs : list SocketEvent)
    (ev : SocketEvent) :
  channel_run clock ch (evs ++ [ev]) = channel_step clock (channel_run clock ch evs) ev.
Proof. unfold channel_run. by rewrite foldl_snoc. Qed.

Lemma last_lifecycle_snoc (evs : list SocketEvent) (ev : SocketEvent) :
  last (List.filter is_lifecycle (evs ++ [ev])) =
  if is_lifecycle ev then Some ev else last (List.filter is_lifecycle evs).
Proof.
  rewrite List.filter_app. simpl. destruct (is_lifecycle ev).
  - by rewrite last_snoc.
  - by rewrite app_nil_r.
Qed.

Lemma channel_run_state (clock : nat → string) (evs : list SocketEvent) :
  outbox (channel_run clock closed_channel evs) =
    mjoin (replicate (length (List.filter is_connect evs)) connect_commands) ∧
  connected (channel_run clock closed_channel evs) =
    match last (List.filter is_lifecycle evs) with
    | Some connect => true
    | _ => false
    end.
Proof.
  induction evs as [|ev evs [IHo IHc]] using rev_ind; [done|].
  rewrite channel_run_snoc, last_lifecycle_snoc, List.filter_app, length_app.
  simpl. rewrite handler_emits, IHo, IHc. split.
  - destruct ev; simpl; rewrite ?Nat.add_0_r, ?app_nil_r; try done.
    rewrite Nat.add_1_r, replicate_S_end, join_app. simpl.
    by rewrite ?app_nil_r.
  - by destruct ev.
Qed.

(** X9: over any run of the channel from its closed state, the hook has
    sent exactly the three commands of the [connect] handler once per
    [connect] event and nothing else, and the socket counts as connected
    exactly when the latest of the [connect] and [disconnect] events is a
    [connect]. *)
Theorem channel_run_summary (clock : nat → string) (evs : list SocketEvent) :
  let ch := channel_run clock closed_channel evs in
  outbox ch = mjoin (replicate (length (List.filter is_connect evs)) connect_commands) ∧
  length (outbox ch) = 3 * length (List.filter is_connect evs) ∧
  connected ch =
    match last (List.filter is_lifecycle evs) with
    | Some connect => true
    | _ => false
    end.
Proof.
  simpl. destruct (channel_run_state clock evs) as [Hout Hconn].
  split; [done|]. split; [|done].
  rewrite Hout. generalize (length (List.filter is_connect evs)) as n.
  induction n as [|n IH]; [done|].
  change (mjoin (replicate (S n) connect_commands))
    with (connect_commands ++ mjoin (replicate n connect_commands)).
  rewrite length_app, IH. simpl. lia.
Qed.

(** X10: a command given to [emitEvent] after a run of the channel is
    sent when the latest of the run's [connect] and [disconnect] events
    is a [connect]; otherwise, so before the first connection and from a
    disconnect to the next connect, it is dropped without a trace. *)
Theorem emitEvent_needs_connection (clock : nat → string) (evs : list SocketEvent)
    (event : string) (data : JsObject) :
  let ch := channel_run clock closed_channel evs in
  emitEvent ch event data =
    match last (List.filter is_lifecycle evs) with
    | Some connect => {| connected := true; outbox := outbox ch ++ [(event, data)] |}
    | _ => ch
    end.
Proof.
  simpl. unfold emitEvent.
  destruct (channel_run_state clock evs) as [_ Hconn]. rewrite Hconn.
  by destruct (last (List.filter is_lifecycle evs)) as [[]|].
Qed.

(** ** The alerts page: filters *)

(** X11: [handleFilterChange(key, value)] sets that one key of the
    filters and keeps the others, touches neither the alerts nor the
    view, and the refetch it triggers asks the server with exactly these
    filters as parameters. *)
Theorem filter_change_refetches (now : string) (state : AlertsState) (key value : string)
    (response : Response (list JsObject)) :
  let state' := store_after now state (AlertsPage.handleFilterChange key value) in
  get (filters state') key = JString value ∧
  (∀ k, k ≠ key → get (filters state') k = get (filters state) k) ∧
  alerts state' = alerts state ∧ activeAlerts state' = activeAlerts state ∧
  requests (AlertsPage.refetch state' response) =
    [ {| method := "GET"; url := "/alerts";
         body := <[ key := JString value ]> (filters state) |} ].
Proof.
  simpl. unfold store_after; simpl.
  assert (spread (filters state) {[ key := JString value ]} =
          <[ key := JString value ]> (filters state)) as ->.
  { unfold spread. by rewrite insert_union_singleton_l. }
  split; [|split; [|split; [done|split; [done|]]]].
  - unfold get. by rewrite lookup_insert_eq.
  - intros k Hk. unfold get. by rewrite lookup_insert_ne.
  - by destruct response.
Qed.

(** ** The alerts page: selection *)

Lemma includes_spec (v : JsValue) (l : list JsValue) :
  AlertsPage.includes v l = true ↔ ∃ u, u ∈ l ∧ strict_eq u v = true.
Proof.
  unfold AlertsPage.includes. rewrite existsb_exists.
  split; intros (u & Hu & H); exists u; by rewrite ?list_elem_of_In in *.
Qed.

Lemma includes_app (v : JsValue) (l k : list JsValue) :
  AlertsPage.includes v (l ++ k) = AlertsPage.includes v l || AlertsPage.includes v k.
Proof. apply existsb_app. Qed.

Lemma includes_filter (v w : JsValue) (l : list JsValue) :
  AlertsPage.includes v (List.filter (fun id => negb (strict_eq id w)) l) =
  existsb (fun id => strict_eq id v && negb (strict_eq id w)) l.
Proof.
  unfold AlertsPage.includes. induction l as [|x l IH]; [done|]. simpl.
  destruct (strict_eq x w); simpl; rewrite IH.
  - by rewrite andb_false_r.
  - by rewrite andb_true_r.
Qed.

(** X12: [handleSelectAlert] toggles a string id: afterwards the id is
    selected exactly when it was not before, every other id is selected
    exactly when it was, and toggling an unselected id twice gives back
    the very selection. *)
Theorem handleSelectAlert_toggles (alertId : string) (prev : list JsValue) :
  let next := AlertsPage.handleSelectAlert (JString alertId) prev in
  AlertsPage.includes (JString alertId) next =
    negb (AlertsPage.includes (JString alertId) prev) ∧
  (∀ other : string, other ≠ alertId →
     AlertsPage.includes (JString other) next = AlertsPage.includes (JString other) prev) ∧
  (AlertsPage.includes (JString alertId) prev = false →
   AlertsPage.handleSelectAlert (JString alertId) next = prev).
Proof.
  simpl. unfold AlertsPage.handleSelectAlert.
  destruct (AlertsPage.includes (JString alertId) prev) eqn:Hin.
  - split; [|split; [|discriminate]].
    + rewrite includes_filter. simpl.
      clear Hin. induction prev as [|x l IH]; [done|]. simpl.
      by rewrite andb_negb_r, IH.
    + intros other Hne. rewrite includes_filter. unfold AlertsPage.includes.
      clear Hin. induction prev as [|x l IH]; [done|]. simpl. rewrite IH. f_equal.
      destruct (strict_eq x (JString other)) eqn:Hx; [|done].
      apply strict_eq_true in Hx. subst x. simpl.
      by rewrite bool_decide_eq_false_2.
  - split; [|split].
    + rewrite includes_app, Hin. simpl. by rewrite bool_decide_eq_true_2.
    + intros other Hne. rewrite includes_app. simpl.
      rewrite bool_decide_eq_false_2 by congruence. by rewrite !orb_false_r.
    + intros _. rewrite includes_app, Hin. simpl.
      rewrite bool_decide_eq_true_2 by done. simpl.
      rewrite List.filter_app. simpl. rewrite bool_decide_eq_true_2 by done. simpl.
      rewrite app_nil_r.
      clear -Hin. induction prev as [|x l IH]; [done|]. simpl in *.
      apply orb_false_iff in Hin as [Hx Hl]. rewrite Hx. simpl. by rewrite IH.
Qed.

(** X13: "Select all" from an empty selection selects the id of every
    listed alert and a second click clears it; and after one alert with
    a string id is deselected from the full selection, the next click
    selects every listed alert again. *)
Theorem select_all_round_trip (filteredAlerts : list JsObject) :
  (filteredAlerts ≠ [] →
   AlertsPage.handleSelectAll [] filteredAlerts = ids filteredAlerts) ∧
  AlertsPage.handleSelectAll (AlertsPage.handleSelectAll [] filteredAlerts)
    filteredAlerts = [] ∧
  ∀ (alert : JsObject) (alertId : string),
    alert ∈ filteredAlerts → get alert "id" = JString alertId →
    AlertsPage.handleSelectAll
      (AlertsPage.handleSelectAlert (JString alertId) (ids filteredAlerts))
      filteredAlerts = ids filteredAlerts.
Proof.
  unfold AlertsPage.handleSelectAll. split; [|split].
  - intros Hne. by destruct filteredAlerts.
  - destruct filteredAlerts as [|a l]; [done|]. simpl.
    by rewrite length_fmap, Nat.eqb_refl.
  - intros alert alertId Hin Hid.
    assert (AlertsPage.includes (JString alertId) (ids filteredAlerts) = true) as Hinc.
    { apply includes_spec. exists (JString alertId). split.
      - unfold ids. apply list_elem_of_fmap. eauto.
      - simpl. by rewrite bool_decide_eq_true_2. }
    unfold AlertsPage.handleSelectAlert. rewrite Hinc.
    assert (length (List.filter (fun id => negb (strict_eq id (JString alertId)))
                      (ids filteredAlerts)) < length filteredAlerts) as Hlt.
    { replace (length filteredAlerts) with (length (ids filteredAlerts))
        by (unfold ids; apply length_fmap).
      apply includes_spec in Hinc as (u & Hu & Heq).
      generalize dependent (ids filteredAlerts). intros l Hu.
      induction l as [|x l IH]; [by apply elem_of_nil in Hu|]. simpl.
      apply elem_of_cons in Hu as [<-|Hu].
      - rewrite Heq. simpl.
        pose proof (filter_length_le
                      (fun id => negb (strict_eq id (JString alertId))) l). lia.
      - specialize (IH Hu). destruct (negb _); simpl; lia. }
    destruct (Nat.eqb_spec
                (length (List.filter (fun id => negb (strict_eq id (JString alertId)))
                           (ids filteredAlerts)))
                (length filteredAlerts)) as [Heq|_]; [lia|done].
Qed.

(** ** The alerts page: groups *)

Lemma has_status_exclusive (s1 s2 : string) (alert : JsObject) :
  s1 ≠ s2 → has_status s1 alert = true → has_status s2 alert = false.
Proof.
  unfold has_status. intros Hne H. apply strict_eq_true in H. rewrite H. simpl.
  by apply bool_decide_eq_false_2.
Qed.

(** X14: the three groups of the alerts page are disjoint, every listed
    alert whose status is ['active'], ['acknowledged'] or ['resolved'] is
    in the group of its status, and an alert with any other status, or
    none, is in no group: the three counts add up to the number of
    listed alerts with one of the three statuses. *)
Theorem alertsByStatus_partition (filteredAlerts : list JsObject) :
  let groups := AlertsPage.alertsByStatus filteredAlerts in
  length (active groups) + length (acknowledged groups) + length (resolved groups) =
    length (List.filter
              (fun a => has_status "active" a || has_status "acknowledged" a
                        || has_status "resolved" a) filteredAlerts) ∧
  (∀ a, a ∈ active groups ↔ a ∈ filteredAlerts ∧ get a "status" = JString "active") ∧
  (∀ a, a ∈ acknowledged groups ↔
        a ∈ filteredAlerts ∧ get a "status" = JString "acknowledged") ∧
  (∀ a, a ∈ resolved groups ↔ a ∈ filteredAlerts ∧ get a "status" = JString "resolved") ∧
  (∀ a, ¬ (a ∈ active groups ∧ a ∈ acknowledged groups) ∧
        ¬ (a ∈ active groups ∧ a ∈ resolved groups) ∧
        ¬ (a ∈ acknowledged groups ∧ a ∈ resolved groups)).
Proof.
  simpl.
  assert (∀ s a, has_status s a = true ↔ get a "status" = JString s) as Hst.
  { intros s a. unfold has_status. split.
    - apply strict_eq_true.
    - intros ->. simpl. by apply bool_decide_eq_true_2. }
  split; [|split; [|split; [|split]]].
  - induction filteredAlerts as [|a l IH]; [done|]. simpl.
    destruct (has_status "active" a) eqn:H1.
    + rewrite (has_status_exclusive "active" "acknowledged" a) by done.
      rewrite (has_status_exclusive "active" "resolved" a) by done.
      simpl. lia.
    + destruct (has_status "acknowledged" a) eqn:H2.
      * rewrite (has_status_exclusive "acknowledged" "resolved" a) by done.
        simpl. lia.
      * destruct (has_status "resolved" a); simpl; lia.
  - intros a. by rewrite elem_of_List_filter, Hst.
  - intros a. by rewrite elem_of_List_filter, Hst.
  - intros a. by rewrite elem_of_List_filter, Hst.
  - intros a. rewrite !elem_of_List_filter, !Hst.
    repeat split; intros [[_ H1] [_ H2]]; congruence.
Qed.

(** ** The dashboard slice *)

Lemma feed_key_inj (f g : Feed) : feed_key f = feed_key g → f = g.
Proof. by destruct f, g. Qed.

Lemma feed_data_update {S V : Type} (now : string) (feed f : Feed) (data : V)
    (state : dashboardSlice.DashboardState S V) :
  feed_data (dashboardSlice.reducer now state (useWebSocket_on_feed feed data)) f =
  if decide (feed = f) then Some data else feed_data state f.
Proof.
  unfold feed_data; simpl. rewrite lookup_union.
  case_decide as Hf.
  - subst f. rewrite lookup_singleton_eq.
    by destruct (default ∅ (dashboardSlice.realTimeData state) !! feed_key feed).
  - rewrite lookup_singleton_ne by (intros H; by apply feed_key_inj in H).
    destruct (dashboardSlice.realTimeData state) as [m|]; simpl.
    + by destruct (m !! feed_key f).
    + by rewrite lookup_empty.
Qed.

(** X15: after any run of feed events the dashboard shows, for each of
    the four feeds, the data of the latest event of that feed (or what it
    showed before when there was none): feeds never overwrite one
    another, whatever the order; and [lastUpdated] is the clock reading
    of the latest event. *)
Theorem feeds_latest_wins {S V : Type} (state : dashboardSlice.DashboardState S V)
    (updates : list (string * Feed * V)) (feed : Feed) :
  feed_data (after_feeds state updates) feed =
    match last (List.filter (fun u => bool_decide (snd (fst u) = feed)) updates) with
    | Some u => Some (snd u)
    | None => feed_data state feed
    end ∧
  dashboardSlice.lastUpdated (after_feeds state updates) =
    match last updates with
    | Some u => Some (fst (fst u))
    | None => dashboardSlice.lastUpdated state
    end ∧
  dashboardSlice.stats (after_feeds state updates) = dashboardSlice.stats state.
Proof.
  induction updates as [|[[now f] data] updates (IH1 & IH2 & IH3)] using rev_ind; [done|].
  unfold after_feeds in *. rewrite foldl_snoc. cbn [fst snd].
  split; [|split].
  - rewrite feed_data_update, List.filter_app. cbn [List.filter fst snd].
    case_decide as Hf.
    + subst f. rewrite bool_decide_eq_true_2 by done. by rewrite last_snoc.
    + rewrite bool_decide_eq_false_2 by done. by rewrite app_nil_r.
  - by rewrite last_snoc.
  - done.
Qed.

(** X16: in the dashboard slice the data never changes without the stamp
    being renewed: an action that changes [stats] or [realTimeData] sets
    [lastUpdated] to the clock reading, and an action after which
    [lastUpdated] differs has set it to the clock reading.  A failed
    [fetchRealTimeData] leaves the whole slice as it was, the error
    included. *)
Theorem dashboard_stamp {S V : Type} (now : string)
    (state : dashboardSlice.DashboardState S V) (action : dashboardSlice.Action S V) :
  let state' := dashboardSlice.reducer now state action in
  (dashboardSlice.stats state' ≠ dashboardSlice.stats state ∨
   dashboardSlice.realTimeData state' ≠ dashboardSlice.realTimeData state ∨
   dashboardSlice.lastUpdated state' ≠ dashboardSlice.lastUpdated state →
   dashboardSlice.lastUpdated state' = Some now) ∧
  ∀ message : option string,
    foldl (dashboardSlice.reducer now) state
      (dashboardSlice.fetchRealTimeData (Failed message)) = state.
Proof.
  simpl. split; [|done].
  destruct action; simpl; try done; intros [H|[H|H]]; done.
Qed.

(** ** The auth thunks *)

(** X17: [logout] from any session leaves the slice unauthenticated with
    no user, no token and no error, removes the token from localStorage
    and sends nothing; a [checkAuth] after it (a page reload) does not
    contact the server either, whatever it would answer, and the session
    stays logged out with no socket. *)
Theorem logout_then_checkAuth (w : Session) (reply : Reply JsObject) :
  let w' := logout w in
  let w'' := checkAuth reply w' in
  (authSlice.isAuthenticated (store w') = false ∧
   authSlice.user (store w') = None ∧
   authSlice.token (store w') = None ∧
   authSlice.error (store w') = None ∧
   storage w' = None ∧ sent w' = sent w ∧
   socket_token (store w') = None) ∧
  (sent w'' = sent w ∧ storage w'' = None ∧
   authSlice.isAuthenticated (store w'') = false ∧
   authSlice.isLoading (store w'') = false ∧
   socket_token (store w'') = None).
Proof. simpl. repeat split. Qed.

Lemma truthy_authorization (t : string) :
  truthy (Some t) = true → authorization (Some t) = Some ("Bearer " +:+ t).
Proof. unfold authorization. by intros ->. Qed.

(** X18: [login] sends one [POST /auth/login] with the credentials (and
    the header of the token stored before).  On success the token of the
    response is put into localStorage and into the slice, the slice is
    authenticated with the response's user, and a non-empty token is the
    one the socket handshake and the following requests carry.  On
    failure the slice ends unauthenticated with no user and no token and
    a non-empty error; localStorage keeps its token unless the status is
    401, on which it is removed and the browser redirected. *)
Theorem login_outcome (w : Session) (body : JsObject) (reply : Reply LoginResponse) :
  let w' := login body reply w in
  sent w' = sent w ++ [ ({| method := "POST"; url := "/auth/login"; body := body |},
                         authorization (storage w)) ] ∧
  authSlice.isLoading (store w') = false ∧
  match reply with
  | Ok response =>
      storage w' = Some (access_token response) ∧
      authSlice.token (store w') = Some (access_token response) ∧
      authSlice.isAuthenticated (store w') = true ∧
      authSlice.user (store w') = Some (login_user response) ∧
      authSlice.error (store w') = None ∧
      redirected w' = redirected w ∧
      (access_token response ≠ "" →
       socket_token (store w') = Some (access_token response) ∧
       authorization (storage w') = Some ("Bearer " +:+ access_token response))
  | Err status message =>
      authSlice.isAuthenticated (store w') = false ∧
      authSlice.user (store w') = None ∧
      authSlice.token (store w') = None ∧
      authSlice.error (store w') = Some (or_else message "Login failed") ∧
      authSlice.error (store w') ≠ Some "" ∧
      storage w' = (if decide (status = Some 401) then None else storage w) ∧
      redirected w' = (if decide (status = Some 401) then true else redirected w)
  end.
Proof.
  simpl. destruct reply as [response|status message].
  - split; [reflexivity|]. split; [reflexivity|]. repeat (split; [reflexivity|]).
    intros Hne. unfold socket_token, authorization; simpl.
    by rewrite bool_decide_eq_false_2.
  - assert (or_else message "Login failed" ≠ "") as Hne by by apply or_else_nonempty.
    unfold login, api_call, unauthorized; simpl.
    case_decide; [rewrite bool_decide_eq_true_2 by done
                 |rewrite bool_decide_eq_false_2 by done];
      repeat split; congruence.
Qed.

(** X19: [checkAuth] contacts the server only when localStorage holds a
    non-empty token: then it sends one [GET /auth/profile] carrying that
    token; on success the slice is authenticated with the profile as
    user and the two tokens stay as they were, on failure the token is
    removed from localStorage and from the slice.  Without a token
    nothing is sent and the session ends logged out.  In every case the
    loading flag is down and no error is left. *)
Theorem checkAuth_outcome (w : Session) (reply : Reply JsObject) :
  let w' := checkAuth reply w in
  authSlice.isLoading (store w') = false ∧
  authSlice.error (store w') = None ∧
  if truthy (storage w) then
    sent w' = sent w ++ [ ({| method := "GET"; url := "/auth/profile"; body := ∅ |},
                           (fun t => "Bearer " +:+ t) <$> storage w) ] ∧
    match reply with
    | Ok profile =>
        authSlice.isAuthenticated (store w') = true ∧
        authSlice.user (store w') = Some profile ∧
        authSlice.token (store w') = authSlice.token (store w) ∧
        storage w' = storage w
    | Err _ _ =>
        authSlice.isAuthenticated (store w') = false ∧
        authSlice.user (store w') = None ∧
        authSlice.token (store w') = None ∧
        storage w' = None
    end
  else
    sent w' = sent w ∧
    authSlice.isAuthenticated (store w') = false ∧
    authSlice.user (store w') = None ∧
    authSlice.token (store w') = None ∧
    storage w' = None.
Proof.
  simpl. unfold checkAuth. simpl.
  destruct (truthy (storage w)) eqn:Ht.
  - assert (authorization (storage w) = (fun t => "Bearer " +:+ t) <$> storage w) as Hauth.
    { destruct (storage w) as [t|]; [|done]. by apply truthy_authorization. }
    destruct reply as [profile|status message]; unfold api_call, unauthorized; simpl.
    + by rewrite Hauth.
    + rewrite Hauth. by case_bool_decide.
  - done.
Qed.

(** ** The session over a run of calls *)

Lemma auth_step_keeps (w : Session) (call : AuthCall) :
  tokens_agree w ∧ user_known w →
  tokens_agree (auth_step w call) ∧ user_known (auth_step w call).
Proof.
  unfold tokens_agree, user_known. intros [Htok Husr].
  destruct call as [body [r|st m]|[r|st m]| |pd [r|st m]|]; simpl;
    unfold login, checkAuth, updateProfile, logout, api_call, unauthorized; simpl;
    repeat case_bool_decide; try destruct (truthy (storage w)); simpl;
    (split; [|done]); try done;
    first [ by intros _ t [= <-] | (intros Hr t Ht; by apply Htok) ].
Qed.

(** X20: over every run of [login], [checkAuth], [logout],
    [updateProfile] and [clearError] from a page load, with whatever
    replies, an authenticated slice has a user, and as long as no 401 has
    redirected the browser the token of the slice is the one in
    localStorage: the token the socket handshake uses is the one the REST
    requests carry. *)
Theorem session_tokens_agree (stored : option string) (calls : list AuthCall) :
  let w := session_after stored calls in
  user_known w ∧ tokens_agree w ∧
  (redirected w = false → ∀ t,
     socket_token (store w) = Some t →
     authorization (storage w) = Some ("Bearer " +:+ t)).
Proof.
  simpl.
  assert (tokens_agree (session_after stored calls) ∧
          user_known (session_after stored calls)) as [Htok Husr].
  { unfold session_after.
    assert (tokens_agree (fresh_session stored) ∧ user_known (fresh_session stored))
      as Hinit by (split; [by intros _ t Ht|discriminate]).
    revert Hinit. generalize (fresh_session stored) as w.
    induction calls as [|call calls IH]; intros w Hw; [done|].
    simpl. apply IH. by apply auth_step_keeps. }
  split; [done|]. split; [done|].
  intros Hr t Hs. unfold socket_token in Hs.
  destruct (authSlice.isAuthenticated _); simpl in Hs; [|discriminate].
  destruct (truthy (authSlice.token _)) eqn:Ht; [|discriminate].
  rewrite (Htok Hr t Hs). apply truthy_authorization. by rewrite <- Hs.
Qed.

(** ** The route guard *)

(** X21: [ProtectedRoute] shows its children exactly when the slice is
    authenticated, the user's role is the required one if a non-empty
    one is required, and the user's permissions include the required one
    if a non-empty one is required; it sends to the login page exactly
    when the slice is not authenticated.  As the routes of the app
    require neither, every authenticated user is shown every page,
    whatever the role. *)
Theorem ProtectedRoute_admits (requiredRole requiredPermission : option string)
    (auth : authSlice.AuthState) :
  (ProtectedRoute requiredRole requiredPermission auth = Children ↔
   authSlice.isAuthenticated auth = true ∧
   (truthy requiredRole = true →
    role_of (authSlice.user auth) = JString (default "" requiredRole)) ∧
   (truthy requiredPermission = true →
    has_permission (authSlice.user auth) (default "" requiredPermission) = true)) ∧
  (ProtectedRoute requiredRole requiredPermission auth = NavigateLogin ↔
   authSlice.isAuthenticated auth = false) ∧
  (route_guard auth = Children ↔ authSlice.isAuthenticated auth = true).
Proof.
  unfold route_guard, ProtectedRoute.
  pose proof (strict_eq_true (role_of (authSlice.user auth))
                (JString (default "" requiredRole))) as Hrole1.
  assert (role_of (authSlice.user auth) = JString (default "" requiredRole) →
          strict_eq (role_of (authSlice.user auth))
            (JString (default "" requiredRole)) = true) as Hrole2.
  { intros ->. simpl. by apply bool_decide_eq_true_2. }
  destruct (authSlice.isAuthenticated auth), (truthy requiredRole),
    (strict_eq (role_of (authSlice.user auth)) (JString (default "" requiredRole))),
    (truthy requiredPermission),
    (has_permission (authSlice.user auth) (default "" requiredPermission));
    simpl; intuition (try discriminate; try congruence).
Qed.

(** ** The navigation *)

Lemma navigation_roles_nonempty :
  Forall (fun item => Forall (fun r => r ≠ "") (roles item)) navigation.
Proof. repeat constructor; discriminate. Qed.

Lemma shown_iff (user : option JsObject) (item : NavItem) :
  item ∈ navigation →
  (existsb (fun r => strict_eq (JString r) (role_or_empty user)) (roles item) = true ↔
   ∃ r, r ∈ roles item ∧ role_of user = JString r).
Proof.
  intros Hitem. rewrite existsb_exists.
  pose proof navigation_roles_nonempty as Hne.
  rewrite Forall_forall in Hne. specialize (Hne item Hitem).
  rewrite Forall_forall in Hne.
  split.
  - intros (r & Hr & Heq). apply list_elem_of_In in Hr. exists r. split; [done|].
    apply strict_eq_true in Heq. unfold role_or_empty in Heq.
    destruct (role_of user) as [|s|xs]; [|congruence|discriminate].
    injection Heq as ->. by destruct (Hne "" Hr).
  - intros (r & Hr & Heq). exists r. split; [by apply list_elem_of_In|].
    unfold role_or_empty. rewrite Heq. simpl. by apply bool_decide_eq_true_2.
Qed.

(** X22: the layout shows a navigation entry exactly when the user's role
    is one of the entry's roles: an admin is shown all eight entries in
    their order, a user with no role, an empty role or an unlisted role
    none, and nobody but an admin the Analytics entry. *)
Theorem filteredNavigation_by_role (user : option JsObject) :
  (∀ item, item ∈ filteredNavigation user ↔
           item ∈ navigation ∧ ∃ r, r ∈ roles item ∧ role_of user = JString r) ∧
  (role_of user = JString "admin" → filteredNavigation user = navigation) ∧
  ((∀ r, r ∈ ["admin"; "traffic_officer"; "environment_officer"; "utility_officer";
              "emergency_coordinator"] → role_of user ≠ JString r) →
   filteredNavigation user = []) ∧
  (role_of user ≠ JString "admin" →
   ∀ item, item ∈ filteredNavigation user → name item ≠ "Analytics").
Proof.
  assert (∀ item, item ∈ filteredNavigation user ↔
            item ∈ navigation ∧ ∃ r, r ∈ roles item ∧ role_of user = JString r) as Hchar.
  { intros item. unfold filteredNavigation. rewrite elem_of_List_filter.
    split.
    - intros [Hin Hshown]. split; [done|]. by apply shown_iff.
    - intros [Hin Hrole]. split; [done|]. by apply shown_iff. }
  split; [exact Hchar|]. split; [|split].
  - intros Hadmin. unfold filteredNavigation, role_or_empty. by rewrite Hadmin.
  - intros Hnone. apply elem_of_nil_inv. intros item Hin.
    apply Hchar in Hin as (Hitem & r & Hr & Hrole).
    apply (Hnone r); [|done].
    unfold navigation in Hitem.
    repeat (apply elem_of_cons in Hitem as [->|Hitem];
            [simpl in Hr;
             repeat (apply elem_of_cons in Hr as [->|Hr];
                     [repeat first [apply list_elem_of_here | apply list_elem_of_further]|]);
             by apply elem_of_nil in Hr|]).
    by apply elem_of_nil in Hitem.
  - intros Hna item Hin Hname.
    apply Hchar in Hin as (Hitem & r & Hr & Hrole).
    unfold navigation in Hitem.
    repeat (apply elem_of_cons in Hitem as [->|Hitem];
            [simpl in Hname, Hr; try discriminate|]).
    + apply list_elem_of_singleton in Hr. subst r. done.
    + by apply elem_of_nil in Hitem.
Qed.

(** ** The login page *)

(** X24: a login form with an empty email or password is never sent and
    changes nothing.  Otherwise exactly one [POST /auth/login] with the
    two fields is sent; when it succeeds the page navigates to [/] and
    the route guard shows the pages, when it fails the page stays and
    the guard sends to the login page. *)
Theorem handleSubmit_outcome (email password : string) (reply : Reply LoginResponse)
    (w : Session) :
  (email = "" ∨ password = "" →
   LoginPage.handleSubmit email password reply w = (w, None)) ∧
  (email ≠ "" → password ≠ "" →
   sent (fst (LoginPage.handleSubmit email password reply w)) =
     sent w ++ [ ({| method := "POST"; url := "/auth/login";
                     body := {[ "email" := JString email;
                                "password" := JString password ]} |},
                  authorization (storage w)) ] ∧
   match reply with
   | Ok _ =>
       snd (LoginPage.handleSubmit email password reply w) = Some "/" ∧
       route_guard (store (fst (LoginPage.handleSubmit email password reply w))) = Children
   | Err _ _ =>
       snd (LoginPage.handleSubmit email password reply w) = None ∧
       route_guard (store (fst (LoginPage.handleSubmit email password reply w)))
         = NavigateLogin
   end).
Proof.
  unfold LoginPage.handleSubmit. split.
  - intros [->| ->]; simpl; [done|]. by rewrite orb_true_r.
  - intros He Hp. rewrite !bool_decide_eq_false_2 by done. simpl.
    destruct reply as [response|status message]; [done|].
    unfold login, api_call, unauthorized; simpl. by case_bool_decide.
Qed.
